(** * The MySQL X Protocol engine of Connector/C++: a shallow embedding

    The development follows two headers of the connector:

    - [include/result.h], whose second part is the internal protocol header
      ([Protocol_impl], [Op_base], [Op_snd], [Op_rcv], [Message_dispatcher])
      and whose first part declares [BaseResult];
    - [cdk/include/mysql/cdk/protocol/mysqlx_expr.h], with the [Safe_prc]
      wrappers over [Scalar_processor] and [Expr_processor].

    C++ objects are records, member functions are state transformers, a
    pointer that may be NULL is an [option], an exception is an [Outcome]
    next to the state reached when it was thrown.

    The protocol header defines [rcv_start], [Op_base], the control
    functions of [Op_rcv] ([read_msg], [next_msg], [process_next],
    [process_msg]) and the dispatcher; these are embedded as they are
    written.  It only declares the frame codec of [Protocol_impl] and the
    stage machine of [Op_rcv] ([do_read_msg], [finish], [do_wait]); those
    are modelled from the specification, on its blocking path, and each such
    definition says so. *)

From Stdlib Require Import ZArith String List Lia Bool.
From stdpp Require Import base option list gmap strings.

Local Open Scope Z_scope.

(** ** Wire-level types and constants *)

Abbreviation bytes := (list Byte.byte).

Definition size_t := Z.
Definition msg_size_t := Z.   (* uint32_t *)
Definition msg_type_t := Z.   (* unsigned short int *)

(** Length of mysqlx message header. *)
Definition header_length : size_t := 5.

(** Maximum size of internal buffer used to send or receive messages. *)
Definition max_wr_size : size_t := 1024 * 1024 * 1024.
Definition max_rd_size : size_t := max_wr_size.

Inductive Protocol_side := SERVER | CLIENT.

Definition other_side (side : Protocol_side) : Protocol_side :=
  match side with
  | SERVER => CLIENT
  | CLIENT => SERVER
  end.

(** [Protocol_impl::m_msg_state], an anonymous enum [{ HEADER, PAYLOAD }]. *)
Inductive Msg_state := Msg_HEADER | Msg_PAYLOAD.

(** [Op_rcv::m_stage], an anonymous enum [{ HEADER, PAYLOAD, DONE }]. *)
Inductive Stage := HEADER | PAYLOAD | DONE.

(** [Op_rcv::Next_msg]. *)
Inductive Next_msg := EXPECTED | UNEXPECTED | STOP.

(** Modelled from the spec: the CDK class [Error], which is declared outside
    the two headers.  [Generic_error descr] is what [THROW(descr)] throws, an
    error that carries its description only; the other constructors are the
    error kinds of the spec's error table that the frame codec and the
    receive stages raise. *)
Inductive Error :=
| Generic_error (descr : string)
| Eos
| Frame_error
| Oversize
| UnexpectedMessage (type : msg_type_t).

(** The error for a type tag that no listed message has.  The source throws
    it as [THROW("unknown server message type")], with a note that a proper
    error is still to do; the specification calls it UnknownMessage. *)
Definition UnknownMessage : Error :=
  Generic_error "unknown server message type".

(** What a call can end in: a value, a thrown [Error], or behaviour the
    language leaves undefined (a NULL dereference, a [static_cast] to a class
    the object does not have, a failed [assert]). *)
Inductive Outcome (A : Type) :=
| Ret (a : A)
| Throw (e : Error)
| Undefined.
Arguments Ret {A} a.
Arguments Throw {A} e.
Arguments Undefined {A}.

(** ** Decoded messages

    The two messages the engine handles itself, with the fields
    [Op_rcv::process_msg] reads; every other protobuf message is opaque. *)

Record Mysqlx_Error := {
  err_code : Z;            (* uint32 code() *)
  err_severity : Z;        (* 0 = ERROR, 1 = FATAL *)
  err_sql_state : string;  (* sql_state() *)
  err_msg : string         (* msg() *)
}.

Record Mysqlx_Notice_Frame := {
  frame_type : Z;          (* uint32 type() *)
  frame_scope : Z;         (* Frame_Scope scope() *)
  frame_payload : bytes    (* payload() *)
}.

Inductive Message :=
| Msg_Error (err : Mysqlx_Error)
| Msg_Notice (frame : Mysqlx_Notice_Frame)
| Msg_other (class_name : string) (content : bytes).

(** [static_cast<Mysqlx::Error&>(msg)]: defined only on an Error object. *)
Definition cast_Error (msg : Message) : option Mysqlx_Error :=
  match msg with Msg_Error e => Some e | _ => None end.

(** [static_cast<Mysqlx::Notice::Frame&>(msg)]. *)
Definition cast_Notice (msg : Message) : option Mysqlx_Notice_Frame :=
  match msg with Msg_Notice n => Some n | _ => None end.

(** The conversion [(short)x] of an integer: reduction into the 16-bit
    two's complement range. *)
Definition to_short (x : Z) : Z := (x + 32768) mod 65536 - 32768.

(** ** Little-endian frame header *)

Definition byte_val (b : Byte.byte) : Z := Z.of_N (Byte.to_N b).

Definition le_u32 (b0 b1 b2 b3 : Byte.byte) : Z :=
  byte_val b0 + 256 * byte_val b1 + 65536 * byte_val b2 + 16777216 * byte_val b3.

Definition byte_of (z : Z) : Byte.byte :=
  match Byte.of_N (Z.to_N (z mod 256)) with
  | Some b => b
  | None => Byte.x00
  end.

(** The four size bytes of a header, low byte first. *)
Definition u32_le (z : Z) : bytes :=
  [byte_of z; byte_of (z / 256); byte_of (z / 65536); byte_of (z / 16777216)].

(** ** Objects of the protocol layer *)

(** Modelled from the spec: the byte stream behind [Protocol::Stream *m_str],
    a reliable, ordered byte channel, given by what it still delivers to
    reads and what writes have put on it. *)
Record Stream := {
  incoming : bytes;
  outgoing : bytes
}.

(** [Op_base]: completion flag and the deferred error [scoped_ptr<Error>]. *)
Record Op_base := {
  m_completed : bool;
  m_error : option Error
}.

Definition Op_base_ctor : Op_base :=
  {| m_completed := false; m_error := None |}.

Definition is_completed (op : Op_base) : bool := m_completed op.

Definition is_done (op : Op_base) : bool := is_completed op.

(** Modelled from the spec: the reply of [message_end()]. *)
Inductive Msg_end := Continue | Stop.

(** The two internal buffers of a [Protocol_impl]. *)
Inductive Buffer := Rd_buf | Wr_buf.

(** One line of the [MSG_LIST] X-macro: [MSG_SERVER(X, MSG, N, C)] or
    [MSG_CLIENT(X, MSG, N, C)], with the value of the case label it expands
    to ([msg_type::N], respectively [msg_type::cli_N]). *)
Record Msg_entry := {
  msg_side : Protocol_side;
  msg_class : string;
  msg_name : string;
  msg_tag : msg_type_t
}.

Definition side_eqb (a b : Protocol_side) : bool :=
  match a, b with
  | SERVER, SERVER | CLIENT, CLIENT => true
  | _, _ => false
  end.

(** The five header bytes: size, low byte first, then the type tag. *)
Definition parse_header (hdr : bytes) : option (msg_size_t * msg_type_t) :=
  match hdr with
  | [b0; b1; b2; b3; t] => Some (le_u32 b0 b1 b2 b3, byte_val t)
  | _ => None
  end.

Section Engine.

(** Everything outside the engine that callbacks act on: the state of the
    caller's processors and of the members a derived receive operation adds.
    Callbacks are the caller's code; each is given by what it makes of this
    state and by its reply, and is taken to return. *)
Context {Ext : Type}.

(** [sql_state_t], constructed from a string by [sql_state_ctor]. *)
Context {sql_state_t : Type}.

(** [msg_type::Error] and [msg_type::Notice]; the enumeration is generated
    from the protocol definition, outside the two headers.  The two are case
    labels of one [switch] in [next_msg], hence different; the statements
    that depend on it say so. *)
Variables msg_type_Error msg_type_Notice : msg_type_t.

Variable sql_state_ctor : string -> sql_state_t.

(** [Error_processor]: the two callbacks [process_msg] makes. *)
Record Error_processor := {
  error : Z -> Z -> sql_state_t -> string -> Ext -> Ext;
  notice : Z -> Z -> bytes -> Ext -> Ext
}.

(** Modelled from the spec: [Processor_base], declared outside the two
    headers.  A base processor sees [message_begin(type, size)], whose reply
    tells whether it asks for the raw payload, the optional raw payload, and
    [message_end()], which replies [Continue] or [Stop].
    [as_Error_processor] is the object seen through
    [static_cast<Error_processor&>]; it is [None] when the object is no
    [Error_processor], and the cast is then undefined. *)
Record Processor_base := {
  message_begin : msg_type_t -> size_t -> Ext -> bool * Ext;
  raw_payload : bytes -> Ext -> Ext;
  message_end : Ext -> Msg_end * Ext;
  as_Error_processor : option Error_processor
}.

(** [Op_rcv].  The constructor initialises the base, [m_stage] and [m_prc];
    the other members are written after each header before they are read. *)
Record Op_rcv := {
  base :> Op_base;
  m_stage : Stage;
  m_prc : option Processor_base;
  m_msg_type : msg_type_t;
  m_msg_size : size_t;
  m_read_window : size_t;
  m_call_message_end : bool;
  m_skip : bool
}.

Definition Op_rcv_ctor : Op_rcv :=
  {| base := Op_base_ctor; m_stage := HEADER; m_prc := None;
     m_msg_type := 0; m_msg_size := 0; m_read_window := 0;
     m_call_message_end := false; m_skip := false |}.

(** [Protocol_impl].  A pending stream operation ([m_rd_op], [m_wr_op]) is
    the number of bytes it still has to move; the members [m_msg_type] and
    [m_msg_size] are prefixed, [Op_rcv] has members of the same names. *)
Record Protocol_impl := {
  m_str : Stream;
  m_side : Protocol_side;
  m_msg_state : Msg_state;
  m_rd_buf : bytes;
  m_rd_size : size_t;
  m_rd_op : option size_t;
  proto_msg_type : msg_type_t;
  proto_msg_size : size_t;
  m_wr_buf : bytes;
  m_wr_size : size_t;
  m_wr_op : option size_t;
  m_snd_op : option Op_base;
  m_rcv_op : option Op_rcv
}.

(** *** Member updates *)

Definition set_m_completed (v : bool) (op : Op_rcv) : Op_rcv :=
  {| base := {| m_completed := v; m_error := m_error op |};
     m_stage := m_stage op; m_prc := m_prc op; m_msg_type := m_msg_type op;
     m_msg_size := m_msg_size op; m_read_window := m_read_window op;
     m_call_message_end := m_call_message_end op; m_skip := m_skip op |}.

Definition set_m_error (v : option Error) (op : Op_rcv) : Op_rcv :=
  {| base := {| m_completed := m_completed op; m_error := v |};
     m_stage := m_stage op; m_prc := m_prc op; m_msg_type := m_msg_type op;
     m_msg_size := m_msg_size op; m_read_window := m_read_window op;
     m_call_message_end := m_call_message_end op; m_skip := m_skip op |}.

Definition set_m_stage (v : Stage) (op : Op_rcv) : Op_rcv :=
  {| base := base op;
     m_stage := v; m_prc := m_prc op; m_msg_type := m_msg_type op;
     m_msg_size := m_msg_size op; m_read_window := m_read_window op;
     m_call_message_end := m_call_message_end op; m_skip := m_skip op |}.

Definition set_m_prc (v : option Processor_base) (op : Op_rcv) : Op_rcv :=
  {| base := base op;
     m_stage := m_stage op; m_prc := v; m_msg_type := m_msg_type op;
     m_msg_size := m_msg_size op; m_read_window := m_read_window op;
     m_call_message_end := m_call_message_end op; m_skip := m_skip op |}.

Definition set_m_msg (type : msg_type_t) (size : size_t) (op : Op_rcv) : Op_rcv :=
  {| base := base op;
     m_stage := m_stage op; m_prc := m_prc op; m_msg_type := type;
     m_msg_size := size; m_read_window := m_read_window op;
     m_call_message_end := m_call_message_end op; m_skip := m_skip op |}.

Definition set_m_call_message_end (v : bool) (op : Op_rcv) : Op_rcv :=
  {| base := base op;
     m_stage := m_stage op; m_prc := m_prc op; m_msg_type := m_msg_type op;
     m_msg_size := m_msg_size op; m_read_window := m_read_window op;
     m_call_message_end := v; m_skip := m_skip op |}.

Definition set_m_skip (v : bool) (op : Op_rcv) : Op_rcv :=
  {| base := base op;
     m_stage := m_stage op; m_prc := m_prc op; m_msg_type := m_msg_type op;
     m_msg_size := m_msg_size op; m_read_window := m_read_window op;
     m_call_message_end := m_call_message_end op; m_skip := v |}.

(** The read side of a [Protocol_impl] after an update of its members. *)
Definition set_rd (str : Stream) (st : Msg_state) (buf : bytes) (cap : size_t)
    (op : option size_t) (type : msg_type_t) (size : size_t)
    (P : Protocol_impl) : Protocol_impl :=
  {| m_str := str; m_side := m_side P; m_msg_state := st;
     m_rd_buf := buf; m_rd_size := cap; m_rd_op := op;
     proto_msg_type := type; proto_msg_size := size;
     m_wr_buf := m_wr_buf P; m_wr_size := m_wr_size P; m_wr_op := m_wr_op P;
     m_snd_op := m_snd_op P; m_rcv_op := m_rcv_op P |}.

Definition set_m_rd_op (op : option size_t) (P : Protocol_impl) : Protocol_impl :=
  set_rd (m_str P) (m_msg_state P) (m_rd_buf P) (m_rd_size P) op
         (proto_msg_type P) (proto_msg_size P) P.

Definition set_m_rd_size (cap : size_t) (P : Protocol_impl) : Protocol_impl :=
  set_rd (m_str P) (m_msg_state P) (m_rd_buf P) cap (m_rd_op P)
         (proto_msg_type P) (proto_msg_size P) P.

(** The write side of a [Protocol_impl] after an update of its members. *)
Definition set_wr (str : Stream) (buf : bytes) (cap : size_t)
    (op : option size_t) (P : Protocol_impl) : Protocol_impl :=
  {| m_str := str; m_side := m_side P; m_msg_state := m_msg_state P;
     m_rd_buf := m_rd_buf P; m_rd_size := m_rd_size P; m_rd_op := m_rd_op P;
     proto_msg_type := proto_msg_type P; proto_msg_size := proto_msg_size P;
     m_wr_buf := buf; m_wr_size := cap; m_wr_op := op;
     m_snd_op := m_snd_op P; m_rcv_op := m_rcv_op P |}.

Definition set_m_wr_size (cap : size_t) (P : Protocol_impl) : Protocol_impl :=
  set_wr (m_str P) (m_wr_buf P) cap (m_wr_op P) P.

Definition set_m_rcv_op (op : option Op_rcv) (P : Protocol_impl) : Protocol_impl :=
  {| m_str := m_str P; m_side := m_side P; m_msg_state := m_msg_state P;
     m_rd_buf := m_rd_buf P; m_rd_size := m_rd_size P; m_rd_op := m_rd_op P;
     proto_msg_type := proto_msg_type P; proto_msg_size := proto_msg_size P;
     m_wr_buf := m_wr_buf P; m_wr_size := m_wr_size P; m_wr_op := m_wr_op P;
     m_snd_op := m_snd_op P; m_rcv_op := op |}.

(** *** The state a member function of [Op_rcv] runs on

    [this] is the operation, [m_proto] the object behind the reference
    [Op_base::m_proto], [ext] the world outside. *)
Record World := {
  this : Op_rcv;
  m_proto : Protocol_impl;
  ext : Ext
}.

Definition M (A : Type) : Type := World -> Outcome A * World.

Definition ret {A} (a : A) : M A := fun w => (Ret a, w).

Definition bind {A B} (c : M A) (k : A -> M B) : M B :=
  fun w =>
    match c w with
    | (Ret a, w') => k a w'
    | (Throw e, w') => (Throw e, w')
    | (Undefined, w') => (Undefined, w')
    end.

Notation "'let*' x ':=' c 'in' k" := (bind c (fun x => k))
  (at level 10, x name, c at level 100, k at level 200, only parsing).

Definition throw {A} (e : Error) : M A := fun w => (Throw e, w).

Definition undefined {A} : M A := fun w => (Undefined, w).

Definition get_this : M Op_rcv := fun w => (Ret (this w), w).

Definition get_proto : M Protocol_impl := fun w => (Ret (m_proto w), w).

Definition update_this (f : Op_rcv -> Op_rcv) : M unit :=
  fun w => (Ret tt, {| this := f (this w); m_proto := m_proto w; ext := ext w |}).

Definition on_proto {A} (f : Protocol_impl -> Outcome A * Protocol_impl) : M A :=
  fun w => let (r, P) := f (m_proto w) in
           (r, {| this := this w; m_proto := P; ext := ext w |}).

(** A callback with a reply, and one returning [void]. *)
Definition callback {A} (f : Ext -> A * Ext) : M A :=
  fun w => let (a, x) := f (ext w) in
           (Ret a, {| this := this w; m_proto := m_proto w; ext := x |}).

Definition callback_ (f : Ext -> Ext) : M unit :=
  callback (fun x => (tt, f x)).

(** [*p] for a pointer [p]. *)
Definition deref {A} (p : option A) : M A :=
  match p with
  | Some a => ret a
  | None => undefined
  end.

(** *** Reading and writing raw message frames

    The header declares [read_header], [read_payload], [rd_wait],
    [rd_process], [write_msg], [wr_wait] and [resize_buf] and documents the
    first two; their bodies are in the implementation file. *)

(** Modelled from the spec: [Protocol_impl::resize_buf].  Each buffer starts
    small and grows on demand up to the maximum frame size; growth is
    monotonic.  The reply is [false] when the requested size is over the
    maximum, and nothing is allocated then. *)
Definition resize_buf (buf : Buffer) (new_size : size_t) (P : Protocol_impl)
    : bool * Protocol_impl :=
  match buf with
  | Rd_buf =>
      if max_rd_size <? new_size then (false, P)
      else (true, set_m_rd_size (Z.max (m_rd_size P) new_size) P)
  | Wr_buf =>
      if max_wr_size <? new_size then (false, P)
      else (true, set_m_wr_size (Z.max (m_wr_size P) new_size) P)
  end.

(** Modelled from the spec: [Protocol_impl::read_header] begins a read of
    exactly 5 bytes.  By the header's comment it does nothing if the header
    was already read; no second read is begun while one is in flight. *)
Definition read_header (P : Protocol_impl) : Protocol_impl :=
  match m_msg_state P, m_rd_op P with
  | Msg_HEADER, None =>
      set_m_rd_op (Some header_length) (snd (resize_buf Rd_buf header_length P))
  | _, _ => P
  end.

(** Modelled from the spec: [Protocol_impl::read_payload] begins a read of
    exactly [payload_size] bytes into the read buffer, growing it as needed.
    By the header's comment it does nothing if the payload has been read. *)
Definition read_payload (P : Protocol_impl) : Outcome unit * Protocol_impl :=
  match m_msg_state P, m_rd_op P with
  | Msg_PAYLOAD, None =>
      match resize_buf Rd_buf (proto_msg_size P) P with
      | (true, P') => (Ret tt, set_m_rd_op (Some (proto_msg_size P)) P')
      | (false, P') => (Throw Oversize, P')
      end
  | _, _ => (Ret tt, P)
  end.

(** Modelled from the spec: [Protocol_impl::rd_process], run when a read
    completes.  After a header: parse the size and the type, store the type
    and [payload_size = size - 1]; a size of 0 is a malformed frame, a size
    over the maximum is oversize.  After a payload: the next read is a
    header again. *)
Definition rd_process (P : Protocol_impl) : Outcome unit * Protocol_impl :=
  match m_msg_state P with
  | Msg_HEADER =>
      match parse_header (m_rd_buf P) with
      | None => (Throw Frame_error, P)
      | Some (size, type) =>
          if size =? 0 then (Throw Frame_error, P)
          else if max_rd_size <? size then (Throw Oversize, P)
          else (Ret tt, set_rd (m_str P) Msg_PAYLOAD (m_rd_buf P) (m_rd_size P)
                               (m_rd_op P) type (size - 1) P)
      end
  | Msg_PAYLOAD =>
      (Ret tt, set_rd (m_str P) Msg_HEADER (m_rd_buf P) (m_rd_size P)
                      (m_rd_op P) (proto_msg_type P) (proto_msg_size P) P)
  end.

(** Modelled from the spec: [Protocol_impl::rd_wait], the blocking
    counterpart of [rd_cont].  It runs the pending read to completion: exactly
    the requested number of bytes moves from the stream into the read buffer
    (a stream that ends before is [Eos]), then the bytes are processed. *)
Definition rd_wait (P : Protocol_impl) : Outcome unit * Protocol_impl :=
  match m_rd_op P with
  | None => (Ret tt, P)
  | Some n =>
      let inc := incoming (m_str P) in
      if Z.of_nat (length inc) <? n then (Throw Eos, P)
      else rd_process
             (set_rd {| incoming := drop (Z.to_nat n) inc;
                        outgoing := outgoing (m_str P) |}
                     (m_msg_state P) (take (Z.to_nat n) inc) (m_rd_size P)
                     None (proto_msg_type P) (proto_msg_size P) P)
  end.

(** The protobuf serialisation of a message and the decoders of the message
    registry, keyed on direction and type tag: both are generated code. *)
Variable serialize : Message -> bytes.
Variable decoder : Protocol_side -> msg_type_t -> option (bytes -> Message).

(** Modelled from the spec: [Protocol_impl::write_msg].  The message is
    serialised at offset 5 of the write buffer, which grows if the length
    plus 5 is over its capacity; a total over the maximum fails with
    oversize.  The size [1 + payload_len] goes into bytes 0..3, low byte
    first, the type into byte 4, and the write of the whole prefix starts. *)
Definition write_msg (type : msg_type_t) (msg : Message) (P : Protocol_impl)
    : Outcome unit * Protocol_impl :=
  let payload := serialize msg in
  let total := header_length + Z.of_nat (length payload) in
  if max_wr_size <? total then (Throw Oversize, P)
  else
    match resize_buf Wr_buf total P with
    | (true, P') =>
        (Ret tt,
         set_wr (m_str P')
                (u32_le (1 + Z.of_nat (length payload)) ++ [byte_of type] ++ payload)
                (m_wr_size P') (Some total) P')
    | (false, P') => (Throw Oversize, P')
    end.

(** Modelled from the spec: [Protocol_impl::wr_wait] runs the pending write
    to completion. *)
Definition wr_wait (P : Protocol_impl) : Outcome unit * Protocol_impl :=
  match m_wr_op P with
  | None => (Ret tt, P)
  | Some n =>
      (Ret tt,
       set_wr {| incoming := incoming (m_str P);
                 outgoing := outgoing (m_str P) ++ take (Z.to_nat n) (m_wr_buf P) |}
              (m_wr_buf P) (m_wr_size P) None P)
  end.

(** *** [Op_base] *)

(** [save_error()], called inside a catch block on the exception [e] in
    flight: [m_error.reset(e.clone())]. *)
Definition save_error (e : Error) : M unit :=
  update_this (set_m_error (Some e)).

(** [throw_saved_error()]: [if (m_error) m_error->rethrow();]. *)
Definition throw_saved_error : M unit :=
  let* op := get_this in
  match m_error op with
  | Some e => throw e
  | None => ret tt
  end.

(** *** [Op_rcv] *)

(** [read_msg(Processor_base &prc)]. *)
Definition read_msg (prc : Processor_base) : M unit :=
  let* _ := update_this (set_m_prc (Some prc)) in
  let* _ := on_proto (fun P => (Ret tt, read_header P)) in
  update_this (set_m_stage HEADER).

(** [read_msg()]: [assert(m_prc); read_msg( *m_prc);]. *)
Definition read_msg_same : M unit :=
  let* op := get_this in
  let* prc := deref (m_prc op) in
  read_msg prc.

(** The virtual member functions a receive operation [Rcv] derived from
    [Op_rcv] may override, the body of its constructor on the members it
    adds, its [is_done()] and its [resume(prc)], which [rcv_start] calls. *)
Record Rcv := {
  do_next_msg : msg_type_t -> M Next_msg;
  do_process_msg : msg_type_t -> Message -> M unit;
  do_process_next : M bool;
  Rcv_is_done : Op_rcv -> Ext -> bool;
  Rcv_ctor : Ext -> Ext;
  resume : Processor_base -> M unit
}.

(** [next_msg(type)]. *)
Definition next_msg (V : Rcv) (type : msg_type_t) : M Next_msg :=
  if type =? msg_type_Error then ret EXPECTED
  else if type =? msg_type_Notice then ret EXPECTED
  else do_next_msg V type.

(** [process_next()]. *)
Definition process_next (V : Rcv) : M bool :=
  let* op := get_this in
  if msg_type_Notice =? m_msg_type op then ret true
  else if msg_type_Error =? m_msg_type op then ret false
  else do_process_next V.

(** [process_msg(type, msg)].  There are 2 error severities: 0 = ERROR,
    1 = FATAL; both are reported as 2 = ERROR. *)
Definition process_msg (V : Rcv) (type : msg_type_t) (msg : Message) : M unit :=
  let* op := get_this in
  if msg_type_Notice =? m_msg_type op then
    let* prc := deref (m_prc op) in
    let* ep := deref (as_Error_processor prc) in
    let* frame := deref (cast_Notice msg) in
    callback_ (notice ep (frame_type frame) (to_short (frame_scope frame))
                      (frame_payload frame))
  else if msg_type_Error =? m_msg_type op then
    let* prc := deref (m_prc op) in
    let* ep := deref (as_Error_processor prc) in
    let* err := deref (cast_Error msg) in
    let sqlstate := sql_state_ctor (err_sql_state err) in
    callback_ (error ep (err_code err) 2 sqlstate (err_msg err))
  else do_process_msg V type msg.

(** Modelled from the spec: [Rcv::resume(prc)], which every derived
    operation defines on its own.  It sets the active processor and begins a
    new stage at the current position of the read side: a new header if no
    frame is in flight, the frame in flight otherwise.  This is what
    [read_msg(prc)] does. *)
Definition resume_stage (prc : Processor_base) : M unit := read_msg prc.

(** The member functions as [Op_rcv] itself defines them: [do_next_msg]
    returns [UNEXPECTED], [do_process_msg] has an empty body,
    [do_process_next] returns [false], [is_done()] is [Op_base]'s. *)
Definition Op_rcv_defaults : Rcv :=
  {| do_next_msg := fun _ => ret UNEXPECTED;
     do_process_msg := fun _ _ => ret tt;
     do_process_next := ret false;
     Rcv_is_done := fun op _ => is_done op;
     Rcv_ctor := fun x => x;
     resume := resume_stage |}.

(** *** The stages of a receive

    [do_read_msg], [process_payload], [finish] and [do_wait] are declared in
    the header; their bodies are in the implementation file. *)

(** Modelled from the spec: the header stage.  When the header read is
    complete, call [next_msg(type)].  [STOP] finishes the stage and leaves
    the header consumed; [UNEXPECTED] saves a deferred unexpected-message
    error and sets [skip], the payload is then drained but not decoded.
    [message_end()] is due for the frame unless a later step suppresses it.
    The reply tells whether the stage stops here. *)
Definition header_stage (V : Rcv) : M bool :=
  let* _ := on_proto rd_wait in
  let* P := get_proto in
  let* _ := update_this (set_m_msg (proto_msg_type P) (proto_msg_size P)) in
  let* _ := update_this (set_m_skip false) in
  let* _ := update_this (set_m_call_message_end true) in
  let* next := next_msg V (proto_msg_type P) in
  match next with
  | STOP => ret true
  | UNEXPECTED =>
      let* _ := save_error (UnexpectedMessage (proto_msg_type P)) in
      let* _ := update_this (set_m_skip true) in
      let* _ := on_proto read_payload in
      let* _ := update_this (set_m_stage PAYLOAD) in
      ret false
  | EXPECTED =>
      let* _ := on_proto read_payload in
      let* _ := update_this (set_m_stage PAYLOAD) in
      ret false
  end.

(** Modelled from the spec: the dispatch stage.  In this order:
    [message_begin(type, size)], the raw bytes if the processor asks for
    them, the message itself through [process_msg], and [message_end()]
    unless it is suppressed. *)
Definition dispatch (V : Rcv) (msg : Message) : M Msg_end :=
  let* op := get_this in
  let* P := get_proto in
  let* prc := deref (m_prc op) in
  let* raw := callback (message_begin prc (m_msg_type op) (m_msg_size op)) in
  let* _ := if raw : bool then callback_ (raw_payload prc (m_rd_buf P)) else ret tt in
  let* _ := process_msg V (m_msg_type op) msg in
  let* op' := get_this in
  if m_call_message_end op' then callback (message_end prc) else ret Continue.

(** Modelled from the spec: the payload stage.  When the payload read is
    complete, a skipped payload is discarded; otherwise the registry is
    consulted: with no decoder for the direction and type a deferred
    unknown-message error is set together with [skip], otherwise the payload
    is decoded and dispatched.  The reply tells whether the processor asked
    to stop. *)
Definition payload_stage (V : Rcv) : M bool :=
  let* _ := on_proto rd_wait in
  let* op := get_this in
  let* P := get_proto in
  let* stop :=
    if m_skip op then ret false
    else
      match decoder (m_side P) (m_msg_type op) with
      | None =>
          let* _ := save_error UnknownMessage in
          let* _ := update_this (set_m_skip true) in
          ret false
      | Some decode =>
          let* reply := dispatch V (decode (m_rd_buf P)) in
          ret (match reply with Stop => true | Continue => false end)
      end in
  let* _ := update_this (set_m_stage DONE) in
  ret stop.

(** Modelled from the spec: [do_read_msg(wait = true)] takes one frame
    through the stages the operation has not yet passed. *)
Definition do_read_msg (V : Rcv) : M bool :=
  let* op := get_this in
  match m_stage op with
  | HEADER =>
      let* stop := header_stage V in
      if stop : bool then ret true else payload_stage V
  | PAYLOAD => payload_stage V
  | DONE => ret false
  end.

(** Modelled from the spec: [finish(stop)], the continuation.  Unless the
    frame asked to stop, [process_next()] decides.  To continue, the next
    message is read with the same processor; otherwise the stage is complete
    and a deferred error, if present, is thrown before returning.  The reply
    is [true] when the stage is complete. *)
Definition finish (V : Rcv) (stop : bool) : M bool :=
  let* again := if stop then ret false else process_next V in
  if again : bool then
    let* _ := read_msg_same in
    ret false
  else
    let* _ := update_this (set_m_completed true) in
    let* _ := throw_saved_error in
    ret true.

(** Modelled from the spec: [do_wait()] takes frames through the stages
    until a stage completes.  [fuel] bounds the number of frames; [None]
    means that it ran out. *)
Fixpoint do_wait (V : Rcv) (fuel : nat) (w : World) : option (Outcome unit * World) :=
  match fuel with
  | O => None
  | S n =>
      match (let* stop := do_read_msg V in finish V stop) w with
      | (Ret true, w') => Some (Ret tt, w')
      | (Ret false, w') => do_wait V n w'
      | (Throw e, w') => Some (Throw e, w')
      | (Undefined, w') => Some (Undefined, w')
      end
  end.

(** *** [Protocol_impl::rcv_start<Rcv, Prc>(prc)]

    The operation in [m_rcv_op] is taken for an [Rcv]; its member functions
    run on it with the protocol object behind [m_proto], and what they leave
    is the operation the slot then holds. *)
Definition rcv_start (V : Rcv) (prc : Processor_base) (P : Protocol_impl) (x : Ext)
    : Outcome unit * (Protocol_impl * Ext) :=
  (* If last receive operation is done, remove it first. *)
  let P1 :=
    match m_rcv_op P with
    | Some op => if Rcv_is_done V op x then set_m_rcv_op None P else P
    | None => P
    end in
  (* Create new receive operation if none is active at the moment. *)
  let '(P2, x2) :=
    match m_rcv_op P1 with
    | None => (set_m_rcv_op (Some Op_rcv_ctor) P1, Rcv_ctor V x)
    | Some _ => (P1, x)
    end in
  (* Resume the operation starting its new stage. *)
  match m_rcv_op P2 with
  | None => (Undefined, (P2, x2))
  | Some op =>
      let (r, w) := resume V prc {| this := op; m_proto := P2; ext := x2 |} in
      (r, (set_m_rcv_op (Some (this w)) (m_proto w), ext w))
  end.

(** *** [Message_dispatcher<Base>::process_msg_with<PRC>(type, msg, prc)]

    [MSG_LIST] is the X-macro that lists the messages of the protocol;
    [Base_process_msg_with] stands for the overloads
    [Base::process_msg_with(MSG&, PRC&)], one per listed message.  The outer
    [switch] is on [m_side]; its default arm is for a value that is neither
    [SERVER] nor [CLIENT], which [Protocol_side] does not have. *)
Variable MSG_LIST : list Msg_entry.
Variable PRC : Type.
Variable Base_process_msg_with : Msg_entry -> Message -> PRC -> M unit.

(** The case of [switch (type)] that [MSG_LIST(PRC_SRV)] (for [SERVER]) or
    [MSG_LIST(PRC_CLI)] (for [CLIENT]) generates for a type, if any: server
    messages expand to a case under [PRC_SRV] and to nothing under
    [PRC_CLI], client messages the other way round. *)
Definition switch_case (side : Protocol_side) (type : msg_type_t) : option Msg_entry :=
  List.find (fun e => side_eqb (msg_side e) side && (msg_tag e =? type)) MSG_LIST.

Definition process_msg_with (type : msg_type_t) (msg : Message) (prc : PRC) : M unit :=
  let* P := get_proto in
  match m_side P with
  | SERVER =>
      match switch_case SERVER type with
      | Some e => Base_process_msg_with e msg prc
      | None => throw UnknownMessage
      end
  | CLIENT =>
      match switch_case CLIENT type with
      | Some e => Base_process_msg_with e msg prc
      | None => throw UnknownMessage
      end
  end.

(** *** The operations on the two buffers, and what bounds them *)

Definition buffers_bounded (P : Protocol_impl) : Prop :=
  0 <= m_rd_size P <= max_rd_size /\
  0 <= m_wr_size P <= max_wr_size /\
  Z.of_nat (length (m_rd_buf P)) <= m_rd_size P /\
  Z.of_nat (length (m_wr_buf P)) <= m_wr_size P /\
  (forall n, m_rd_op P = Some n -> n <= m_rd_size P).

Inductive codec_step : Protocol_impl -> Protocol_impl -> Prop :=
| step_resize_buf buf n P : codec_step P (snd (resize_buf buf n P))
| step_read_header P : codec_step P (read_header P)
| step_read_payload P : codec_step P (snd (read_payload P))
| step_rd_wait P : codec_step P (snd (rd_wait P))
| step_write_msg type msg P : codec_step P (snd (write_msg type msg P))
| step_wr_wait P : codec_step P (snd (wr_wait P)).

(** A member function keeps the buffers within the maximum. *)
Definition keeps_buffers {A} (c : M A) : Prop :=
  forall w, buffers_bounded (m_proto w) -> buffers_bounded (m_proto (snd (c w))).

(** A receive operation whose own virtual functions do so. *)
Definition Rcv_keeps_buffers (V : Rcv) : Prop :=
  (forall type, keeps_buffers (do_next_msg V type)) /\
  (forall type msg, keeps_buffers (do_process_msg V type msg)) /\
  keeps_buffers (do_process_next V).

(** *** One frame through the stages *)

(** What the callbacks of one dispatched frame make of the world outside,
    [cb] being the call that hands over the message itself, and the reply
    of [message_end()]. *)
Definition dispatched (prc : Processor_base) (type : msg_type_t) (size : size_t)
    (payload : bytes) (cb : Ext -> Ext) (x : Ext) : Msg_end * Ext :=
  let (raw, x1) := message_begin prc type size x in
  let x2 := if raw : bool then raw_payload prc payload x1 else x1 in
  message_end prc (cb x2).

(** The world after a frame of the given type and payload went through the
    header, payload and dispatch stages, [rest] being what the stream still
    holds and [x] the world outside. *)
Definition after_frame (type : msg_type_t) (payload rest : bytes) (x : Ext)
    (w : World) : World :=
  let size := Z.of_nat (length payload) in
  {| this :=
       set_m_stage DONE
         (set_m_call_message_end true
            (set_m_skip false (set_m_msg type size (this w))));
     m_proto :=
       set_rd {| incoming := rest; outgoing := outgoing (m_str (m_proto w)) |}
              Msg_HEADER payload (Z.max (m_rd_size (m_proto w)) size) None
              type size (m_proto w);
     ext := x |}.

(** An operation that waits for a header with the processor [prc]. *)
Definition awaits_header (prc : Processor_base) (w : World) : Prop :=
  m_stage (this w) = HEADER /\
  m_prc (this w) = Some prc /\
  m_msg_state (m_proto w) = Msg_HEADER /\
  m_rd_op (m_proto w) = Some header_length.

(** What [rcv_start] does last: [resume(prc)] on the operation [op] of the
    slot, which then holds what the call left of the operation. *)
Definition resumed (V : Rcv) (prc : Processor_base) (op : Op_rcv)
    (P : Protocol_impl) (x : Ext) : Outcome unit * (Protocol_impl * Ext) :=
  let (r, w) := resume V prc {| this := op; m_proto := P; ext := x |} in
  (r, (set_m_rcv_op (Some (this w)) (m_proto w), ext w)).

(** A frame as it travels: the size [1 + payload_len], low byte first, the
    type tag, the payload. *)
Definition frame_bytes (t : Byte.byte) (payload : bytes) : bytes :=
  u32_le (1 + Z.of_nat (length payload)) ++ [t] ++ payload.

(** What the callbacks of a run of [Notice] frames, given by payload and
    decoded message, make of the world outside. *)
Definition notices_seen (prc : Processor_base) (ep : Error_processor)
    (frames : list (bytes * Mysqlx_Notice_Frame)) (x : Ext) : Ext :=
  fold_left
    (fun x '(payload, frame) =>
       snd (dispatched prc msg_type_Notice (Z.of_nat (length payload)) payload
              (notice ep (frame_type frame) (to_short (frame_scope frame))
                      (frame_payload frame))
              x))
    frames x.

(** The world in which a stage has completed. *)
Definition completed (w : World) : World :=
  {| this := set_m_completed true (this w); m_proto := m_proto w; ext := ext w |}.

(** What [throw_saved_error()] ends in for an operation. *)
Definition saved_error_outcome {A} (op : Op_rcv) (a : A) : Outcome A :=
  match m_error op with
  | Some e => Throw e
  | None => Ret a
  end.

(** The read side once the five header bytes [hdr] have left the stream. *)
Definition header_taken (hdr rest : bytes) (P : Protocol_impl) : Protocol_impl :=
  set_rd {| incoming := rest; outgoing := outgoing (m_str P) |}
         Msg_HEADER hdr (m_rd_size P) None (proto_msg_type P) (proto_msg_size P) P.

(** ** Properties of the engine *)

Ltac unfold_M :=
  unfold bind, ret, throw, undefined, get_this, get_proto, update_this,
         on_proto, callback_, callback, deref in *.

Lemma to_short_id (z : Z) : -32768 <= z < 32768 -> to_short z = z.
Proof.
  intros Hz. unfold to_short.
  rewrite Z.mod_small by lia. lia.
Qed.

Lemma next_msg_expected (V : Rcv) (type : msg_type_t) :
  type = msg_type_Error \/ type = msg_type_Notice ->
  next_msg V type = ret EXPECTED.
Proof.
  unfold next_msg. intros [-> | ->].
  - now rewrite Z.eqb_refl.
  - rewrite Z.eqb_refl. now destruct (msg_type_Notice =? msg_type_Error).
Qed.

Lemma next_msg_other (V : Rcv) (type : msg_type_t) :
  type <> msg_type_Error -> type <> msg_type_Notice ->
  next_msg V type = do_next_msg V type.
Proof.
  unfold next_msg. intros He Hn.
  apply Z.eqb_neq in He, Hn. now rewrite He, Hn.
Qed.

(** C4.  [next_msg(type)] is [EXPECTED] for [Error] and for [Notice]; for
    every other type it is what the virtual [do_next_msg(type)] returns,
    and [Op_rcv]'s own [do_next_msg] returns [UNEXPECTED]. *)
Theorem next_msg_spec (V : Rcv) (type : msg_type_t) :
  (type = msg_type_Error \/ type = msg_type_Notice ->
     next_msg V type = ret EXPECTED) /\
  (type <> msg_type_Error -> type <> msg_type_Notice ->
     next_msg V type = do_next_msg V type) /\
  do_next_msg Op_rcv_defaults type = ret UNEXPECTED /\
  (type <> msg_type_Error -> type <> msg_type_Notice ->
     next_msg Op_rcv_defaults type = ret UNEXPECTED).
Proof.
  split; [apply next_msg_expected|].
  split; [apply next_msg_other|].
  split; [reflexivity|].
  intros He Hn. now rewrite next_msg_other.
Qed.

(** [process_next()] by the type of the message just processed. *)
Lemma process_next_Notice (V : Rcv) (w : World) :
  m_msg_type (this w) = msg_type_Notice -> process_next V w = (Ret true, w).
Proof.
  intros H. unfold process_next. unfold_M.
  now rewrite H, Z.eqb_refl.
Qed.

Lemma process_next_Error (V : Rcv) (w : World) :
  msg_type_Error <> msg_type_Notice ->
  m_msg_type (this w) = msg_type_Error -> process_next V w = (Ret false, w).
Proof.
  intros Hne H. unfold process_next. unfold_M.
  rewrite H, Z.eqb_refl.
  apply not_eq_sym, Z.eqb_neq in Hne. now rewrite Hne.
Qed.

Lemma process_next_other (V : Rcv) (w : World) :
  m_msg_type (this w) <> msg_type_Notice ->
  m_msg_type (this w) <> msg_type_Error ->
  process_next V w = do_process_next V w.
Proof.
  intros Hn He. unfold process_next. unfold_M.
  apply not_eq_sym, Z.eqb_neq in Hn, He. rewrite Hn, He.
  now destruct (do_process_next V w) as [[] ?].
Qed.

Lemma process_next_defaults (w : World) :
  m_msg_type (this w) <> msg_type_Notice ->
  process_next Op_rcv_defaults w = (Ret false, w).
Proof.
  intros Hn. unfold process_next. unfold_M.
  apply not_eq_sym, Z.eqb_neq in Hn. rewrite Hn.
  now destruct (msg_type_Error =? m_msg_type (this w)).
Qed.

Lemma finish_stops (V : Rcv) (stop : bool) (w : World) :
  (if stop then True else process_next V w = (Ret false, w)) ->
  finish V stop w = (saved_error_outcome (this w) true, completed w).
Proof.
  intros H. unfold finish, throw_saved_error, saved_error_outcome, completed.
  destruct stop.
  - unfold_M. simpl. now destruct (m_error (this w)).
  - unfold bind at 1. rewrite H. unfold_M. simpl.
    now destruct (m_error (this w)).
Qed.

Lemma finish_continues (V : Rcv) (w : World) (prc : Processor_base) :
  process_next V w = (Ret true, w) ->
  m_prc (this w) = Some prc ->
  finish V false w = (Ret false, snd (read_msg prc w)).
Proof.
  intros H Hp. unfold finish. unfold bind at 1. rewrite H.
  unfold read_msg_same, read_msg. unfold_M. simpl. now rewrite Hp.
Qed.

Lemma process_msg_Error (V : Rcv) (type : msg_type_t) (w : World)
    (prc : Processor_base) (ep : Error_processor) (err : Mysqlx_Error) :
  msg_type_Error <> msg_type_Notice ->
  m_prc (this w) = Some prc ->
  as_Error_processor prc = Some ep ->
  m_msg_type (this w) = msg_type_Error ->
  process_msg V type (Msg_Error err) w
    = (Ret tt,
       {| this := this w; m_proto := m_proto w;
          ext := error ep (err_code err) 2 (sql_state_ctor (err_sql_state err))
                       (err_msg err) (ext w) |}).
Proof.
  intros Hne Hp Hep Ht. unfold process_msg. unfold_M.
  apply not_eq_sym, Z.eqb_neq in Hne.
  rewrite Ht, Hne, Z.eqb_refl, Hp. simpl. now rewrite Hep.
Qed.

Lemma process_msg_Notice (V : Rcv) (type : msg_type_t) (w : World)
    (prc : Processor_base) (ep : Error_processor) (frame : Mysqlx_Notice_Frame) :
  m_prc (this w) = Some prc ->
  as_Error_processor prc = Some ep ->
  m_msg_type (this w) = msg_type_Notice ->
  process_msg V type (Msg_Notice frame) w
    = (Ret tt,
       {| this := this w; m_proto := m_proto w;
          ext := notice ep (frame_type frame) (to_short (frame_scope frame))
                        (frame_payload frame) (ext w) |}).
Proof.
  intros Hp Hep Ht. unfold process_msg. unfold_M.
  rewrite Ht, Z.eqb_refl, Hp. simpl. now rewrite Hep.
Qed.

(** C1.  With an [Error] as the current message, [process_msg] makes one
    call, [error(code, 2, sql_state, msg)] on the error processor, with the
    code, the SQL state and the text of the message and the severity 2,
    which stands for ERROR; with a [Notice] it makes the one call
    [notice(type, (short)scope, payload)], and the conversion keeps every
    scope that fits a [short].  In both cases the result is the same for
    every [do_process_msg]: the virtual function has no part in it. *)
Theorem process_msg_Error_Notice
    (V : Rcv) (type : msg_type_t) (w : World)
    (prc : Processor_base) (ep : Error_processor) :
  msg_type_Error <> msg_type_Notice ->
  m_prc (this w) = Some prc ->
  as_Error_processor prc = Some ep ->
  (forall err,
     m_msg_type (this w) = msg_type_Error ->
     process_msg V type (Msg_Error err) w
       = (Ret tt,
          {| this := this w; m_proto := m_proto w;
             ext := error ep (err_code err) 2 (sql_state_ctor (err_sql_state err))
                          (err_msg err) (ext w) |})) /\
  (forall frame,
     m_msg_type (this w) = msg_type_Notice ->
     process_msg V type (Msg_Notice frame) w
       = (Ret tt,
          {| this := this w; m_proto := m_proto w;
             ext := notice ep (frame_type frame) (to_short (frame_scope frame))
                           (frame_payload frame) (ext w) |}) /\
     (-32768 <= frame_scope frame < 32768 ->
        to_short (frame_scope frame) = frame_scope frame)) /\
  (forall V' msg,
     m_msg_type (this w) = msg_type_Error \/ m_msg_type (this w) = msg_type_Notice ->
     process_msg V' type msg w = process_msg V type msg w).
Proof.
  intros Hne Hp Hep. split; [|split].
  - intros err Ht. now apply (process_msg_Error V type w prc ep).
  - intros frame Ht. split; [|apply to_short_id].
    now apply (process_msg_Notice V type w prc ep).
  - intros V' msg Ht. unfold process_msg. unfold_M.
    destruct Ht as [Ht | Ht]; rewrite Ht, Z.eqb_refl.
    + now destruct (msg_type_Notice =? msg_type_Error).
    + reflexivity.
Qed.

(** C5, as the code has it.  [throw_saved_error()] throws the saved error
    when there is one and does nothing otherwise; either way it leaves the
    operation as it was.  The saved error stays in [m_error], and a second
    call throws it again. *)
Theorem throw_saved_error_spec (w : World) :
  throw_saved_error w = (saved_error_outcome (this w) tt, w) /\
  m_error (this (snd (throw_saved_error w))) = m_error (this w) /\
  throw_saved_error (snd (throw_saved_error w)) = throw_saved_error w.
Proof.
  assert (H : throw_saved_error w = (saved_error_outcome (this w) tt, w)).
  { unfold throw_saved_error, saved_error_outcome. unfold_M.
    now destruct (m_error (this w)). }
  rewrite H. simpl. auto.
Qed.

(** The cases of the dispatch switch. *)
Lemma switch_case_Some (side : Protocol_side) (type : msg_type_t) (e : Msg_entry) :
  switch_case side type = Some e ->
  In e MSG_LIST /\ msg_side e = side /\ msg_tag e = type.
Proof.
  unfold switch_case. intros H. apply find_some in H as [Hin Hb].
  apply andb_prop in Hb as [Hs Ht]. apply Z.eqb_eq in Ht.
  repeat split; auto.
  destruct (msg_side e), side; simpl in Hs; congruence.
Qed.

Lemma switch_case_None (side : Protocol_side) (type : msg_type_t) :
  (forall e, In e MSG_LIST -> msg_side e = side -> msg_tag e <> type) ->
  switch_case side type = None.
Proof.
  intros H. unfold switch_case.
  destruct (List.find _ MSG_LIST) as [e|] eqn:E; [|reflexivity].
  apply switch_case_Some in E as (Hin & Hs & Ht).
  now destruct (H e Hin Hs).
Qed.

Lemma switch_case_listed (e : Msg_entry) :
  In e MSG_LIST ->
  exists e', switch_case (msg_side e) (msg_tag e) = Some e'.
Proof.
  intros Hin. unfold switch_case.
  destruct (List.find _ MSG_LIST) as [e'|] eqn:E; [now exists e'|].
  exfalso. eapply find_none in E; [|exact Hin].
  rewrite Z.eqb_refl in E. now destruct (msg_side e).
Qed.

Lemma process_msg_with_case (type : msg_type_t) (msg : Message) (prc : PRC) (w : World) :
  process_msg_with type msg prc w =
    match switch_case (m_side (m_proto w)) type with
    | Some e => Base_process_msg_with e msg prc w
    | None => (Throw UnknownMessage, w)
    end.
Proof.
  unfold process_msg_with. unfold_M.
  destruct (m_side (m_proto w)); now destruct (switch_case _ type).
Qed.

(** C7.  For the side messages are received from, the switch of
    [process_msg_with] has a case for every message [MSG_LIST] lists for
    that side: a listed type is handed to the overload of a listed message
    of that side and type, which is the listed message itself when case
    labels are distinct, as a switch requires.  For every type with no
    listed message of that side the default arm throws [UnknownMessage], the
    error "unknown server message type", and nothing else happens. *)
Theorem process_msg_with_total
    (type : msg_type_t) (msg : Message) (prc : PRC) (w : World) :
  (forall e,
     In e MSG_LIST -> msg_side e = m_side (m_proto w) -> msg_tag e = type ->
     exists e',
       In e' MSG_LIST /\ msg_side e' = msg_side e /\ msg_tag e' = type /\
       process_msg_with type msg prc w = Base_process_msg_with e' msg prc w) /\
  (forall e,
     (forall e1 e2, In e1 MSG_LIST -> In e2 MSG_LIST ->
        msg_side e1 = msg_side e2 -> msg_tag e1 = msg_tag e2 -> e1 = e2) ->
     In e MSG_LIST -> msg_side e = m_side (m_proto w) -> msg_tag e = type ->
     process_msg_with type msg prc w = Base_process_msg_with e msg prc w) /\
  ((forall e,
      In e MSG_LIST -> msg_side e = m_side (m_proto w) -> msg_tag e <> type) ->
   process_msg_with type msg prc w = (Throw UnknownMessage, w) /\
   UnknownMessage = Generic_error "unknown server message type").
Proof.
  assert (Hcase : forall e,
     In e MSG_LIST -> msg_side e = m_side (m_proto w) -> msg_tag e = type ->
     exists e',
       In e' MSG_LIST /\ msg_side e' = msg_side e /\ msg_tag e' = type /\
       process_msg_with type msg prc w = Base_process_msg_with e' msg prc w).
  { intros e Hin Hs Ht.
    destruct (switch_case_listed e Hin) as [e' He'].
    rewrite Hs, Ht in He'.
    exists e'. rewrite process_msg_with_case, He'.
    apply switch_case_Some in He' as (Hin' & Hs' & Ht').
    repeat split; congruence. }
  split; [exact Hcase|]. split.
  - intros e Hdistinct Hin Hs Ht.
    destruct (Hcase e Hin Hs Ht) as (e' & Hin' & Hs' & Ht' & Heq).
    rewrite Heq. f_equal.
    apply Hdistinct; congruence.
  - intros Hnone. rewrite process_msg_with_case.
    now rewrite (switch_case_None _ _ Hnone).
Qed.

(** Every operation on the buffers keeps them within the maximum. *)
Lemma resize_buf_bounded (buf : Buffer) (n : size_t) (P : Protocol_impl) :
  buffers_bounded P -> buffers_bounded (snd (resize_buf buf n P)).
Proof.
  unfold buffers_bounded, resize_buf. intros (Hr & Hw & Hrb & Hwb & Hop).
  destruct buf.
  - destruct (max_rd_size <? n) eqn:E; simpl; [now auto|].
    apply Z.ltb_ge in E. repeat split; try lia.
    intros k Hk. specialize (Hop k Hk). lia.
  - destruct (max_wr_size <? n) eqn:E; simpl; [now auto|].
    apply Z.ltb_ge in E. repeat split; try lia. exact Hop.
Qed.

Lemma resize_buf_fits (buf : Buffer) (n : size_t) (P : Protocol_impl) :
  fst (resize_buf buf n P) = true ->
  match buf with
  | Rd_buf => n <= m_rd_size (snd (resize_buf buf n P))
  | Wr_buf => n <= m_wr_size (snd (resize_buf buf n P))
  end.
Proof.
  unfold resize_buf. destruct buf.
  - destruct (max_rd_size <? n); simpl; [discriminate|]. lia.
  - destruct (max_wr_size <? n); simpl; [discriminate|]. lia.
Qed.

Lemma read_header_bounded (P : Protocol_impl) :
  buffers_bounded P -> buffers_bounded (read_header P).
Proof.
  intros HP. unfold read_header.
  destruct (m_msg_state P); [|exact HP].
  destruct (m_rd_op P); [exact HP|].
  pose proof (resize_buf_bounded Rd_buf header_length P HP) as HB.
  pose proof (resize_buf_fits Rd_buf header_length P) as HF.
  unfold resize_buf in *. change (max_rd_size <? header_length) with false in *.
  unfold buffers_bounded in *. simpl in *. specialize (HF eq_refl).
  destruct HB as (Hr & Hw & Hrb & Hwb & _).
  repeat split; try lia.
  intros n [= <-]. exact HF.
Qed.

Lemma read_payload_bounded (P : Protocol_impl) :
  buffers_bounded P -> buffers_bounded (snd (read_payload P)).
Proof.
  intros HP. unfold read_payload.
  destruct (m_msg_state P); [exact HP|].
  destruct (m_rd_op P); [exact HP|].
  pose proof (resize_buf_bounded Rd_buf (proto_msg_size P) P HP) as HB.
  pose proof (resize_buf_fits Rd_buf (proto_msg_size P) P) as HF.
  destruct (resize_buf Rd_buf (proto_msg_size P) P) as [[] P']; simpl in *;
    [|exact HB].
  specialize (HF eq_refl).
  unfold buffers_bounded in *. simpl in *.
  destruct HB as (Hr & Hw & Hrb & Hwb & _).
  repeat split; try lia.
  intros n [= <-]. exact HF.
Qed.

Lemma rd_process_bounded (P : Protocol_impl) :
  buffers_bounded P -> buffers_bounded (snd (rd_process P)).
Proof.
  intros HP. unfold rd_process.
  destruct (m_msg_state P); [|exact HP].
  destruct (parse_header (m_rd_buf P)) as [[size type]|]; [|exact HP].
  destruct (size =? 0); [exact HP|].
  destruct (max_rd_size <? size); exact HP.
Qed.

Lemma rd_wait_bounded (P : Protocol_impl) :
  buffers_bounded P -> buffers_bounded (snd (rd_wait P)).
Proof.
  intros HP. unfold rd_wait.
  destruct (m_rd_op P) as [n|] eqn:Hop; [|exact HP].
  destruct (Z.of_nat (length (incoming (m_str P))) <? n); [exact HP|].
  apply rd_process_bounded.
  destruct HP as (Hr & Hw & Hrb & Hwb & Hn).
  specialize (Hn n Hop).
  unfold buffers_bounded. simpl. repeat split; try lia; [|discriminate].
  rewrite length_take. lia.
Qed.

Lemma frame_length (size type : Z) (payload : bytes) :
  Z.of_nat (length (u32_le size ++ [byte_of type] ++ payload))
    = header_length + Z.of_nat (length payload).
Proof.
  unfold u32_le, header_length. simpl length. lia.
Qed.

Lemma write_msg_bounded (type : msg_type_t) (msg : Message) (P : Protocol_impl) :
  buffers_bounded P -> buffers_bounded (snd (write_msg type msg P)).
Proof.
  intros HP. unfold write_msg.
  destruct (max_wr_size <? _); [exact HP|].
  set (total := header_length + Z.of_nat (length (serialize msg))).
  pose proof (resize_buf_bounded Wr_buf total P HP) as HB.
  pose proof (resize_buf_fits Wr_buf total P) as HF.
  destruct (resize_buf Wr_buf total P) as [[] P']; simpl in *; [|exact HB].
  specialize (HF eq_refl).
  destruct HB as (Hr & Hw & Hrb & Hwb & Hop).
  pose proof (frame_length (1 + Z.of_nat (length (serialize msg))) type
                           (serialize msg)) as HL.
  fold total in HL.
  unfold buffers_bounded. simpl in *.
  repeat split; try lia. exact Hop.
Qed.

Lemma wr_wait_bounded (P : Protocol_impl) :
  buffers_bounded P -> buffers_bounded (snd (wr_wait P)).
Proof.
  intros HP. unfold wr_wait. destruct (m_wr_op P); exact HP.
Qed.

Lemma codec_step_bounded (P P' : Protocol_impl) :
  codec_step P P' -> buffers_bounded P -> buffers_bounded P'.
Proof.
  destruct 1; auto using resize_buf_bounded, read_header_bounded,
    read_payload_bounded, rd_wait_bounded, write_msg_bounded, wr_wait_bounded.
Qed.

Lemma codec_steps_bounded (P P' : Protocol_impl) :
  rtc codec_step P P' -> buffers_bounded P -> buffers_bounded P'.
Proof.
  induction 1 as [|P Q R Hstep _ IH]; [auto|].
  intros HP. apply IH. eapply codec_step_bounded; eauto.
Qed.

(** Completion of a header read. *)
Lemma byte_val_nonneg (b : Byte.byte) : 0 <= byte_val b < 256.
Proof.
  unfold byte_val. pose proof (Byte.to_N_bounded b) as H. lia.
Qed.

Lemma le_u32_nonneg (b0 b1 b2 b3 : Byte.byte) : 0 <= le_u32 b0 b1 b2 b3 < 2 ^ 32.
Proof.
  unfold le_u32.
  pose proof (byte_val_nonneg b0). pose proof (byte_val_nonneg b1).
  pose proof (byte_val_nonneg b2). pose proof (byte_val_nonneg b3).
  change (2 ^ 32) with 4294967296. lia.
Qed.

Lemma rd_wait_header (P : Protocol_impl) (b0 b1 b2 b3 t : Byte.byte) (rest : bytes) :
  m_msg_state P = Msg_HEADER ->
  m_rd_op P = Some header_length ->
  incoming (m_str P) = [b0; b1; b2; b3; t] ++ rest ->
  rd_wait P =
    let size := le_u32 b0 b1 b2 b3 in
    let P1 := header_taken [b0; b1; b2; b3; t] rest P in
    if size =? 0 then (Throw Frame_error, P1)
    else if max_rd_size <? size then (Throw Oversize, P1)
    else (Ret tt,
          set_rd (m_str P1) Msg_PAYLOAD (m_rd_buf P1) (m_rd_size P1) None
                 (byte_val t) (size - 1) P1).
Proof.
  intros Hst Hop Hin. unfold rd_wait. rewrite Hop, Hin, Hst.
  unfold header_length. simpl length.
  change (Z.of_nat (S (S (S (S (S (length rest)))))) <? 5)
    with (Z.of_nat (5 + length rest) <? 5).
  replace (Z.of_nat (5 + length rest) <? 5) with false
    by (symmetry; apply Z.ltb_ge; lia).
  reflexivity.
Qed.

Lemma rd_wait_rejects (P : Protocol_impl) (b0 b1 b2 b3 t : Byte.byte) (rest : bytes) :
  m_msg_state P = Msg_HEADER ->
  m_rd_op P = Some header_length ->
  incoming (m_str P) = [b0; b1; b2; b3; t] ++ rest ->
  le_u32 b0 b1 b2 b3 = 0 \/ max_rd_size < le_u32 b0 b1 b2 b3 ->
  rd_wait P =
    (Throw (if le_u32 b0 b1 b2 b3 =? 0 then Frame_error else Oversize),
     header_taken [b0; b1; b2; b3; t] rest P).
Proof.
  intros Hst Hop Hin Hsize.
  rewrite (rd_wait_header P b0 b1 b2 b3 t rest Hst Hop Hin). cbv zeta.
  destruct (le_u32 b0 b1 b2 b3 =? 0) eqn:E0; [reflexivity|].
  destruct Hsize as [H0 | Hbig].
  - apply Z.eqb_neq in E0. contradiction.
  - apply Z.ltb_lt in Hbig. now rewrite Hbig.
Qed.

Lemma rd_wait_accepts (P : Protocol_impl) (b0 b1 b2 b3 t : Byte.byte) (rest : bytes) :
  m_msg_state P = Msg_HEADER ->
  m_rd_op P = Some header_length ->
  incoming (m_str P) = [b0; b1; b2; b3; t] ++ rest ->
  1 <= le_u32 b0 b1 b2 b3 <= max_rd_size ->
  rd_wait P =
    (Ret tt,
     set_rd {| incoming := rest; outgoing := outgoing (m_str P) |}
            Msg_PAYLOAD [b0; b1; b2; b3; t] (m_rd_size P) None
            (byte_val t) (le_u32 b0 b1 b2 b3 - 1) P).
Proof.
  intros Hst Hop Hin Hsize.
  rewrite (rd_wait_header P b0 b1 b2 b3 t rest Hst Hop Hin). cbv zeta.
  replace (le_u32 b0 b1 b2 b3 =? 0) with false
    by (symmetry; apply Z.eqb_neq; lia).
  replace (max_rd_size <? le_u32 b0 b1 b2 b3) with false
    by (symmetry; apply Z.ltb_ge; lia).
  reflexivity.
Qed.

Ltac sim :=
  cbn [bind ret throw undefined get_this get_proto update_this on_proto
       callback callback_ deref save_error
       this m_proto ext base m_completed m_error m_stage m_prc m_msg_type
       m_msg_size m_read_window m_call_message_end m_skip
       m_str m_side m_msg_state m_rd_buf m_rd_size m_rd_op proto_msg_type
       proto_msg_size m_wr_buf m_wr_size m_wr_op m_snd_op m_rcv_op
       set_m_completed set_m_error set_m_stage set_m_prc set_m_msg
       set_m_call_message_end set_m_skip set_rd set_m_rd_op set_m_rd_size
       set_wr set_m_wr_size set_m_rcv_op incoming outgoing fst snd] in *.

Lemma read_payload_ok (P : Protocol_impl) :
  m_msg_state P = Msg_PAYLOAD ->
  m_rd_op P = None ->
  proto_msg_size P <= max_rd_size ->
  read_payload P =
    (Ret tt,
     set_rd (m_str P) Msg_PAYLOAD (m_rd_buf P)
            (Z.max (m_rd_size P) (proto_msg_size P))
            (Some (proto_msg_size P)) (proto_msg_type P) (proto_msg_size P) P).
Proof.
  intros Hst Hop Hmax. unfold read_payload, resize_buf. rewrite Hst, Hop.
  replace (max_rd_size <? proto_msg_size P) with false
    by (symmetry; apply Z.ltb_ge; lia).
  unfold set_m_rd_op, set_m_rd_size, set_rd. sim. now rewrite Hst.
Qed.

Lemma rd_wait_payload (P : Protocol_impl) (payload rest : bytes) :
  m_msg_state P = Msg_PAYLOAD ->
  m_rd_op P = Some (Z.of_nat (length payload)) ->
  incoming (m_str P) = payload ++ rest ->
  rd_wait P =
    (Ret tt,
     set_rd {| incoming := rest; outgoing := outgoing (m_str P) |}
            Msg_HEADER payload (m_rd_size P) None
            (proto_msg_type P) (proto_msg_size P) P).
Proof.
  intros Hst Hop Hin. unfold rd_wait. rewrite Hop, Hin.
  replace (Z.of_nat (length (payload ++ rest)) <? Z.of_nat (length payload))
    with false by (symmetry; apply Z.ltb_ge; rewrite length_app; lia).
  rewrite Nat2Z.id, take_app_length, drop_app_length.
  unfold rd_process. cbn [set_rd m_msg_state]. rewrite Hst. reflexivity.
Qed.

(** Equations of the monad, oriented for rewriting at the head of a run. *)
Lemma bind_assoc {A B C} (c : M A) (k : A -> M B) (k' : B -> M C) (w : World) :
  bind (bind c k) k' w = bind c (fun a => bind (k a) k') w.
Proof.
  unfold bind. now destruct (c w) as [[a | e |] w'].
Qed.

Lemma bind_ret {A B} (a : A) (k : A -> M B) (w : World) :
  bind (ret a) k w = k a w.
Proof. reflexivity. Qed.

Lemma bind_get_this {B} (k : Op_rcv -> M B) (w : World) :
  bind get_this k w = k (this w) w.
Proof. reflexivity. Qed.

Lemma bind_get_proto {B} (k : Protocol_impl -> M B) (w : World) :
  bind get_proto k w = k (m_proto w) w.
Proof. reflexivity. Qed.

Lemma bind_update_this {B} (f : Op_rcv -> Op_rcv) (k : unit -> M B) (w : World) :
  bind (update_this f) k w
    = k tt {| this := f (this w); m_proto := m_proto w; ext := ext w |}.
Proof. reflexivity. Qed.

Lemma bind_save_error {B} (e : Error) (k : unit -> M B) (w : World) :
  bind (save_error e) k w
    = k tt {| this := set_m_error (Some e) (this w); m_proto := m_proto w;
              ext := ext w |}.
Proof. reflexivity. Qed.

Lemma bind_callback {A B} (f : Ext -> A * Ext) (k : A -> M B) (w : World) :
  bind (callback f) k w
    = k (fst (f (ext w)))
        {| this := this w; m_proto := m_proto w; ext := snd (f (ext w)) |}.
Proof.
  unfold bind, callback. now destruct (f (ext w)).
Qed.

Lemma bind_callback_ {B} (f : Ext -> Ext) (k : unit -> M B) (w : World) :
  bind (callback_ f) k w
    = k tt {| this := this w; m_proto := m_proto w; ext := f (ext w) |}.
Proof. reflexivity. Qed.

Lemma bind_deref {A B} (a : A) (k : A -> M B) (w : World) :
  bind (deref (Some a)) k w = k a w.
Proof. reflexivity. Qed.

Lemma bind_on_proto {A B} (f : Protocol_impl -> Outcome A * Protocol_impl)
    (k : A -> M B) (w : World) (a : A) (P' : Protocol_impl) :
  f (m_proto w) = (Ret a, P') ->
  bind (on_proto f) k w = k a {| this := this w; m_proto := P'; ext := ext w |}.
Proof.
  intros H. unfold bind, on_proto. now rewrite H.
Qed.

Lemma bind_eq {A B} (c : M A) (k : A -> M B) (w w' : World) (a : A) :
  c w = (Ret a, w') -> bind c k w = k a w'.
Proof.
  intros H. unfold bind. now rewrite H.
Qed.

Create Rewrite HintDb run_M.

#[local] Hint Rewrite @bind_assoc @bind_ret @bind_get_this @bind_get_proto
  @bind_update_this @bind_save_error @bind_callback @bind_callback_
  @bind_deref : run_M.

Ltac run := repeat (progress (autorewrite with run_M; cbv beta; sim)).

Lemma header_stage_expected
    (V : Rcv) (w : World) (b0 b1 b2 b3 t : Byte.byte) (rest : bytes) :
  m_msg_state (m_proto w) = Msg_HEADER ->
  m_rd_op (m_proto w) = Some header_length ->
  incoming (m_str (m_proto w)) = [b0; b1; b2; b3; t] ++ rest ->
  1 <= le_u32 b0 b1 b2 b3 <= max_rd_size ->
  next_msg V (byte_val t) = ret EXPECTED ->
  header_stage V w =
    (Ret false,
     {| this :=
          set_m_stage PAYLOAD
            (set_m_call_message_end true
               (set_m_skip false
                  (set_m_msg (byte_val t) (le_u32 b0 b1 b2 b3 - 1) (this w))));
        m_proto :=
          set_rd {| incoming := rest; outgoing := outgoing (m_str (m_proto w)) |}
                 Msg_PAYLOAD [b0; b1; b2; b3; t]
                 (Z.max (m_rd_size (m_proto w)) (le_u32 b0 b1 b2 b3 - 1))
                 (Some (le_u32 b0 b1 b2 b3 - 1))
                 (byte_val t) (le_u32 b0 b1 b2 b3 - 1) (m_proto w);
        ext := ext w |}).
Proof.
  intros Hst Hop Hin Hsize Hnext.
  unfold header_stage.
  erewrite bind_on_proto by (apply rd_wait_accepts; eauto).
  sim. rewrite Hnext. sim.
  erewrite bind_on_proto by (apply read_payload_ok; sim; auto; lia).
  sim. reflexivity.
Qed.

Lemma payload_stage_dispatch
    (V : Rcv) (w : World) (prc : Processor_base) (payload rest : bytes)
    (decode : bytes -> Message) (cb : Ext -> Ext) :
  m_prc (this w) = Some prc ->
  m_skip (this w) = false ->
  m_call_message_end (this w) = true ->
  m_msg_state (m_proto w) = Msg_PAYLOAD ->
  m_rd_op (m_proto w) = Some (Z.of_nat (length payload)) ->
  incoming (m_str (m_proto w)) = payload ++ rest ->
  decoder (m_side (m_proto w)) (m_msg_type (this w)) = Some decode ->
  (forall wm,
     m_msg_type (this wm) = m_msg_type (this w) ->
     m_prc (this wm) = Some prc ->
     process_msg V (m_msg_type (this w)) (decode payload) wm
       = (Ret tt, {| this := this wm; m_proto := m_proto wm; ext := cb (ext wm) |})) ->
  payload_stage V w =
    let r := dispatched prc (m_msg_type (this w)) (m_msg_size (this w)) payload cb (ext w) in
    (Ret (match fst r with Stop => true | Continue => false end),
     {| this := set_m_stage DONE (this w);
        m_proto :=
          set_rd {| incoming := rest; outgoing := outgoing (m_str (m_proto w)) |}
                 Msg_HEADER payload (m_rd_size (m_proto w)) None
                 (proto_msg_type (m_proto w)) (proto_msg_size (m_proto w))
                 (m_proto w);
        ext := snd r |}).
Proof.
  intros Hprc Hskip Hend Hst Hop Hin Hdec Hproc.
  unfold payload_stage.
  erewrite bind_on_proto by (apply rd_wait_payload; eauto).
  run. rewrite Hskip, Hdec. unfold dispatch, dispatched. run.
  rewrite Hprc. run.
  destruct (message_begin prc _ _ _) as [raw x1]. sim.
  destruct raw; run.
  - erewrite bind_eq by (apply Hproc; reflexivity || exact Hprc).
    run. rewrite Hend. run. reflexivity.
  - erewrite bind_eq by (apply Hproc; reflexivity || exact Hprc).
    run. rewrite Hend. run. reflexivity.
Qed.

(** A frame of an expected type with a decoder goes through the three
    stages: header, payload, dispatch. *)
Lemma do_read_msg_expected
    (V : Rcv) (w : World) (prc : Processor_base)
    (b0 b1 b2 b3 t : Byte.byte) (payload rest : bytes)
    (decode : bytes -> Message) (cb : Ext -> Ext) :
  awaits_header prc w ->
  incoming (m_str (m_proto w)) = [b0; b1; b2; b3; t] ++ payload ++ rest ->
  le_u32 b0 b1 b2 b3 = 1 + Z.of_nat (length payload) ->
  le_u32 b0 b1 b2 b3 <= max_rd_size ->
  next_msg V (byte_val t) = ret EXPECTED ->
  decoder (m_side (m_proto w)) (byte_val t) = Some decode ->
  (forall wm,
     m_msg_type (this wm) = byte_val t ->
     m_prc (this wm) = Some prc ->
     process_msg V (byte_val t) (decode payload) wm
       = (Ret tt, {| this := this wm; m_proto := m_proto wm; ext := cb (ext wm) |})) ->
  do_read_msg V w =
    let r := dispatched prc (byte_val t) (Z.of_nat (length payload)) payload cb (ext w) in
    (Ret (match fst r with Stop => true | Continue => false end),
     after_frame (byte_val t) payload rest (snd r) w).
Proof.
  intros (Hstage & Hprc & Hst & Hop) Hin Hsize Hmax Hnext Hdec Hproc.
  unfold do_read_msg. run. rewrite Hstage.
  erewrite bind_eq
    by (apply (header_stage_expected V w b0 b1 b2 b3 t (payload ++ rest));
        auto; lia).
  cbv beta iota.
  assert (Hs : le_u32 b0 b1 b2 b3 - 1 = Z.of_nat (length payload)) by lia.
  rewrite Hs.
  erewrite payload_stage_dispatch; [ | sim; eauto ..].
  sim. reflexivity.
Qed.

(** A frame of an unexpected type: the error is saved, the payload is
    drained, no callback is made. *)
Lemma do_read_msg_unexpected
    (V : Rcv) (w : World) (prc : Processor_base)
    (b0 b1 b2 b3 t : Byte.byte) (payload rest : bytes) :
  awaits_header prc w ->
  incoming (m_str (m_proto w)) = [b0; b1; b2; b3; t] ++ payload ++ rest ->
  le_u32 b0 b1 b2 b3 = 1 + Z.of_nat (length payload) ->
  le_u32 b0 b1 b2 b3 <= max_rd_size ->
  next_msg V (byte_val t) = ret UNEXPECTED ->
  do_read_msg V w =
    (Ret false,
     {| this :=
          set_m_skip true
            (set_m_error (Some (UnexpectedMessage (byte_val t)))
               (this (after_frame (byte_val t) payload rest (ext w) w)));
        m_proto := m_proto (after_frame (byte_val t) payload rest (ext w) w);
        ext := ext w |}).
Proof.
  intros (Hstage & Hprc & Hst & Hop) Hin Hsize Hmax Hnext.
  assert (Hs : le_u32 b0 b1 b2 b3 - 1 = Z.of_nat (length payload)) by lia.
  unfold do_read_msg. run. rewrite Hstage.
  unfold header_stage. rewrite ?bind_assoc.
  erewrite bind_on_proto
    by (apply (rd_wait_accepts (m_proto w) b0 b1 b2 b3 t (payload ++ rest));
        auto; lia).
  run. rewrite ?bind_assoc. erewrite bind_eq by (rewrite Hnext; reflexivity).
  run. rewrite ?bind_assoc.
  erewrite bind_on_proto by (apply read_payload_ok; sim; auto; lia).
  run. unfold payload_stage. rewrite Hs.
  erewrite bind_on_proto by (apply rd_wait_payload; sim; eauto).
  run. reflexivity.
Qed.

Lemma do_wait_unexpected
    (V : Rcv) (w : World) (prc : Processor_base)
    (b0 b1 b2 b3 t : Byte.byte) (payload rest : bytes) (fuel : nat) :
  awaits_header prc w ->
  incoming (m_str (m_proto w)) = [b0; b1; b2; b3; t] ++ payload ++ rest ->
  le_u32 b0 b1 b2 b3 = 1 + Z.of_nat (length payload) ->
  le_u32 b0 b1 b2 b3 <= max_rd_size ->
  next_msg V (byte_val t) = ret UNEXPECTED ->
  (forall w0, m_msg_type (this w0) = byte_val t -> process_next V w0 = (Ret false, w0)) ->
  exists w',
    do_wait V (S fuel) w = Some (Throw (UnexpectedMessage (byte_val t)), w') /\
    is_done (this w') = true /\
    ext w' = ext w /\
    incoming (m_str (m_proto w')) = rest /\
    m_rd_op (m_proto w') = None.
Proof.
  intros Hw Hin Hsize Hmax Hnext Hstop.
  eexists. split.
  - cbn [do_wait].
    erewrite bind_eq
      by (apply (do_read_msg_unexpected V w prc b0 b1 b2 b3 t payload rest); auto).
    rewrite finish_stops by (apply Hstop; reflexivity).
    reflexivity.
  - repeat split.
Qed.

(** An [Error] frame through [do_wait]. *)
Lemma do_wait_Error
    (V : Rcv) (w : World) (prc : Processor_base) (ep : Error_processor)
    (b0 b1 b2 b3 t : Byte.byte) (payload rest : bytes)
    (decode : bytes -> Message) (err : Mysqlx_Error) (fuel : nat) :
  msg_type_Error <> msg_type_Notice ->
  awaits_header prc w ->
  as_Error_processor prc = Some ep ->
  incoming (m_str (m_proto w)) = [b0; b1; b2; b3; t] ++ payload ++ rest ->
  byte_val t = msg_type_Error ->
  le_u32 b0 b1 b2 b3 = 1 + Z.of_nat (length payload) ->
  le_u32 b0 b1 b2 b3 <= max_rd_size ->
  decoder (m_side (m_proto w)) msg_type_Error = Some decode ->
  decode payload = Msg_Error err ->
  do_wait V (S fuel) w =
    Some (saved_error_outcome (this w) tt,
          completed
            (after_frame msg_type_Error payload rest
               (snd (dispatched prc msg_type_Error (Z.of_nat (length payload)) payload
                       (error ep (err_code err) 2
                              (sql_state_ctor (err_sql_state err)) (err_msg err))
                       (ext w)))
               w)).
Proof.
  intros Hne Hw Hep Hin Ht Hsize Hmax Hdec Herr.
  pose proof Hw as (_ & Hprc & _).
  cbn [do_wait].
  erewrite bind_eq.
  2:{ apply (do_read_msg_expected V w prc b0 b1 b2 b3 t payload rest decode
               (error ep (err_code err) 2 (sql_state_ctor (err_sql_state err))
                      (err_msg err))); auto.
      - rewrite Ht. apply next_msg_expected. now left.
      - now rewrite Ht.
      - intros wm Hwt Hwp. rewrite Herr, Ht.
        rewrite Ht in Hwt.
        now apply (process_msg_Error V msg_type_Error wm prc ep). }
  cbv zeta. rewrite Ht.
  rewrite finish_stops.
  - unfold saved_error_outcome. cbn [after_frame this set_m_stage
      set_m_call_message_end set_m_skip set_m_msg base m_error].
    now destruct (m_error (this w)).
  - destruct (fst _); [|exact I].
    apply process_next_Error; [exact Hne | reflexivity].
Qed.

(** The size bytes of a frame read back. *)
Lemma byte_val_of (z : Z) : byte_val (byte_of z) = z mod 256.
Proof.
  unfold byte_val, byte_of.
  pose proof (Z.mod_pos_bound z 256 eq_refl) as Hm.
  destruct (Byte.of_N (Z.to_N (z mod 256))) as [b|] eqn:E.
  - apply Byte.to_of_N in E. rewrite E. lia.
  - apply Byte.of_N_None_iff in E. lia.
Qed.

Lemma le_u32_le (z : Z) :
  0 <= z < 2 ^ 32 ->
  le_u32 (byte_of z) (byte_of (z / 256)) (byte_of (z / 65536))
         (byte_of (z / 16777216)) = z.
Proof.
  intros Hz. change (2 ^ 32) with 4294967296 in Hz.
  unfold le_u32. rewrite !byte_val_of.
  pose proof (Z.div_mod z 256 ltac:(lia)).
  pose proof (Z.div_mod (z / 256) 256 ltac:(lia)).
  pose proof (Z.div_mod (z / 65536) 256 ltac:(lia)).
  pose proof (Z.div_mod (z / 16777216) 256 ltac:(lia)).
  replace (z / 65536) with (z / 256 / 256) in *
    by (rewrite Z.div_div by lia; reflexivity).
  replace (z / 16777216) with (z / 256 / 256 / 256) in *
    by (rewrite !Z.div_div by lia; reflexivity).
  assert (z / 256 / 256 / 256 / 256 = 0).
  { rewrite !Z.div_div by lia. apply Z.div_small. lia. }
  lia.
Qed.

(** A [Notice] frame through [do_wait]: the receive goes on to the next
    header with the same processor. *)
Lemma do_wait_Notice
    (V : Rcv) (w : World) (prc : Processor_base) (ep : Error_processor)
    (b0 b1 b2 b3 t : Byte.byte) (payload rest : bytes)
    (decode : bytes -> Message) (frame : Mysqlx_Notice_Frame) (fuel : nat) :
  awaits_header prc w ->
  as_Error_processor prc = Some ep ->
  (forall x, fst (message_end prc x) = Continue) ->
  incoming (m_str (m_proto w)) = [b0; b1; b2; b3; t] ++ payload ++ rest ->
  byte_val t = msg_type_Notice ->
  le_u32 b0 b1 b2 b3 = 1 + Z.of_nat (length payload) ->
  le_u32 b0 b1 b2 b3 <= max_rd_size ->
  decoder (m_side (m_proto w)) msg_type_Notice = Some decode ->
  decode payload = Msg_Notice frame ->
  exists w',
    do_wait V (S fuel) w = do_wait V fuel w' /\
    awaits_header prc w' /\
    incoming (m_str (m_proto w')) = rest /\
    ext w' = notices_seen prc ep [(payload, frame)] (ext w) /\
    m_side (m_proto w') = m_side (m_proto w) /\
    base (this w') = base (this w).
Proof.
  intros Hw Hep Hgo Hin Ht Hsize Hmax Hdec Hframe.
  pose proof Hw as (_ & Hprc & _).
  set (cb := notice ep (frame_type frame) (to_short (frame_scope frame))
                    (frame_payload frame)).
  set (r := dispatched prc msg_type_Notice (Z.of_nat (length payload)) payload cb (ext w)).
  exists (snd (read_msg prc (after_frame msg_type_Notice payload rest (snd r) w))).
  split.
  - cbn [do_wait].
    erewrite bind_eq.
    2:{ apply (do_read_msg_expected V w prc b0 b1 b2 b3 t payload rest decode cb);
          auto.
        - rewrite Ht. apply next_msg_expected. now right.
        - now rewrite Ht.
        - intros wm Hwt Hwp. rewrite Hframe, Ht. rewrite Ht in Hwt.
          now apply (process_msg_Notice V msg_type_Notice wm prc ep). }
    cbv zeta. rewrite Ht. fold r.
    assert (Hr : fst r = Continue).
    { unfold r, dispatched. destruct (message_begin prc _ _ _). apply Hgo. }
    rewrite Hr.
    erewrite finish_continues; [reflexivity | | exact Hprc].
    now apply process_next_Notice.
  - unfold read_msg, after_frame, awaits_header, read_header, resize_buf.
    change (max_rd_size <? header_length) with false.
    run. repeat split; reflexivity.
Qed.

(** Any number of [Notice] frames through [do_wait]. *)
Lemma do_wait_Notices
    (V : Rcv) (prc : Processor_base) (ep : Error_processor) (t : Byte.byte)
    (decode : bytes -> Message) (frames : list (bytes * Mysqlx_Notice_Frame))
    (rest : bytes) (fuel : nat) :
  as_Error_processor prc = Some ep ->
  (forall x, fst (message_end prc x) = Continue) ->
  byte_val t = msg_type_Notice ->
  Forall (fun pf => 1 + Z.of_nat (length (fst pf)) <= max_rd_size /\
                    decode (fst pf) = Msg_Notice (snd pf)) frames ->
  forall w,
    awaits_header prc w ->
    decoder (m_side (m_proto w)) msg_type_Notice = Some decode ->
    incoming (m_str (m_proto w))
      = flat_map (fun pf => frame_bytes t (fst pf)) frames ++ rest ->
    exists w',
      do_wait V (length frames + fuel) w = do_wait V fuel w' /\
      awaits_header prc w' /\
      incoming (m_str (m_proto w')) = rest /\
      ext w' = notices_seen prc ep frames (ext w) /\
      m_side (m_proto w') = m_side (m_proto w) /\
      base (this w') = base (this w).
Proof.
  intros Hep Hgo Ht Hall.
  induction Hall as [|[payload frame] frames [Hmax Hframe] _ IH]; intros w Hw Hdec Hin.
  - exists w. simpl in *. auto 10.
  - cbn [fst snd] in *.
    assert (Hrange : 0 <= 1 + Z.of_nat (length payload) < 2 ^ 32).
    { unfold max_rd_size, max_wr_size in Hmax. change (2 ^ 32) with 4294967296. lia. }
    destruct (do_wait_Notice V w prc ep
                (byte_of (1 + Z.of_nat (length payload)))
                (byte_of ((1 + Z.of_nat (length payload)) / 256))
                (byte_of ((1 + Z.of_nat (length payload)) / 65536))
                (byte_of ((1 + Z.of_nat (length payload)) / 16777216))
                t payload
                (flat_map (fun pf => frame_bytes t (fst pf)) frames ++ rest)
                decode frame (length frames + fuel))
      as (w1 & Hstep & Hw1 & Hin1 & Hext1 & Hside1 & Hbase1); auto.
    + rewrite Hin. cbn [flat_map fst]. unfold frame_bytes, u32_le.
      rewrite <- !app_assoc. reflexivity.
    + now apply le_u32_le.
    + now rewrite le_u32_le.
    + destruct (IH w1 Hw1) as (w2 & Hsteps & Hw2 & Hin2 & Hext2 & Hside2 & Hbase2).
      * now rewrite Hside1.
      * exact Hin1.
      * exists w2. repeat split; try apply Hw2; auto.
        -- cbn [length Nat.add]. now rewrite Hstep.
        -- rewrite Hext2, Hext1. reflexivity.
        -- congruence.
        -- congruence.
Qed.

(** C2.  After an [Error] message [process_next()] returns [false]; the
    continuation then completes the stage, so that [is_done()] holds, whether
    or not a deferred error is thrown on the way out.  A receive that meets
    an [Error] frame, at once or after any number of [Notice] frames, ends
    with it: the outside world has seen the callbacks of the frames up to
    and including the [Error] and no other, what follows the [Error] frame
    is still on the stream, and no read is pending. *)
Theorem Error_terminates
    (V : Rcv) (w : World) (prc : Processor_base) (ep : Error_processor)
    (b0 b1 b2 b3 t : Byte.byte) (payload rest : bytes)
    (decode : bytes -> Message) (err : Mysqlx_Error) (fuel : nat) :
  msg_type_Error <> msg_type_Notice ->
  (forall w0,
     m_msg_type (this w0) = msg_type_Error ->
     process_next V w0 = (Ret false, w0)) /\
  (forall w0 stop,
     m_msg_type (this w0) = msg_type_Error ->
     finish V stop w0 = (saved_error_outcome (this w0) true, completed w0) /\
     is_done (this (completed w0)) = true) /\
  (awaits_header prc w ->
   as_Error_processor prc = Some ep ->
   incoming (m_str (m_proto w)) = [b0; b1; b2; b3; t] ++ payload ++ rest ->
   byte_val t = msg_type_Error ->
   le_u32 b0 b1 b2 b3 = 1 + Z.of_nat (length payload) ->
   le_u32 b0 b1 b2 b3 <= max_rd_size ->
   decoder (m_side (m_proto w)) msg_type_Error = Some decode ->
   decode payload = Msg_Error err ->
   exists w',
     do_wait V (S fuel) w = Some (saved_error_outcome (this w) tt, w') /\
     is_done (this w') = true /\
     m_stage (this w') = DONE /\
     ext w' =
       snd (dispatched prc msg_type_Error (Z.of_nat (length payload)) payload
              (error ep (err_code err) 2 (sql_state_ctor (err_sql_state err))
                     (err_msg err))
              (ext w)) /\
     incoming (m_str (m_proto w')) = rest /\
     m_rd_op (m_proto w') = None) /\
  (forall tn decode_notice frames,
   awaits_header prc w ->
   as_Error_processor prc = Some ep ->
   (forall x, fst (message_end prc x) = Continue) ->
   byte_val tn = msg_type_Notice ->
   decoder (m_side (m_proto w)) msg_type_Notice = Some decode_notice ->
   Forall (fun pf => 1 + Z.of_nat (length (fst pf)) <= max_rd_size /\
                     decode_notice (fst pf) = Msg_Notice (snd pf)) frames ->
   incoming (m_str (m_proto w))
     = flat_map (fun pf => frame_bytes tn (fst pf)) frames
       ++ [b0; b1; b2; b3; t] ++ payload ++ rest ->
   byte_val t = msg_type_Error ->
   le_u32 b0 b1 b2 b3 = 1 + Z.of_nat (length payload) ->
   le_u32 b0 b1 b2 b3 <= max_rd_size ->
   decoder (m_side (m_proto w)) msg_type_Error = Some decode ->
   decode payload = Msg_Error err ->
   exists w',
     do_wait V (length frames + S fuel) w
       = Some (saved_error_outcome (this w) tt, w') /\
     is_done (this w') = true /\
     m_stage (this w') = DONE /\
     ext w' =
       snd (dispatched prc msg_type_Error (Z.of_nat (length payload)) payload
              (error ep (err_code err) 2 (sql_state_ctor (err_sql_state err))
                     (err_msg err))
              (notices_seen prc ep frames (ext w))) /\
     incoming (m_str (m_proto w')) = rest /\
     m_rd_op (m_proto w') = None).
Proof.
  intros Hne. split; [|split; [|split]].
  - intros w0 Ht. now apply process_next_Error.
  - intros w0 stop Ht. split; [|reflexivity].
    apply finish_stops. destruct stop; [exact I|].
    now apply process_next_Error.
  - intros Hw Hep Hin Ht Hsize Hmax Hdec Herr.
    eexists. split.
    + eapply do_wait_Error; eauto.
    + repeat split.
  - intros tn decode_notice frames Hw Hep Hgo Htn Hdecn Hall Hin Ht Hsize Hmax
      Hdec Herr.
    destruct (do_wait_Notices V prc ep tn decode_notice frames
                ([b0; b1; b2; b3; t] ++ payload ++ rest) (S fuel)
                Hep Hgo Htn Hall w Hw Hdecn Hin)
      as (w1 & Hrun & Hw1 & Hin1 & Hext1 & Hside1 & Hbase1).
    eexists. split.
    + rewrite Hrun.
      rewrite (do_wait_Error V w1 prc ep b0 b1 b2 b3 t payload rest decode err fuel);
        auto; [|now rewrite Hside1].
      unfold saved_error_outcome. rewrite Hbase1, Hext1. reflexivity.
    + repeat apply conj; reflexivity.
Qed.

(** C3.  [process_next()] returns [true] when the message was a [Notice];
    for a type other than [Notice] and [Error] it returns what the virtual
    [do_process_next()] returns, which is [false] unless overridden.  Hence
    the continuation after a [Notice] does not complete the stage, it starts
    the read of the next message with the same processor, and a receive
    passes over any number of [Notice] frames on the stream, handing each to
    [notice], as long as the processor does not ask to stop; and with
    [Op_rcv]'s own virtual functions the continuation after any message that
    is no [Notice] completes the stage, so that a receive ends with the first
    frame that is neither [Notice] nor [Error], of which it reads no byte
    more. *)
Theorem process_next_spec (V : Rcv) (w : World) :
  (m_msg_type (this w) = msg_type_Notice ->
     process_next V w = (Ret true, w)) /\
  (m_msg_type (this w) <> msg_type_Notice ->
   m_msg_type (this w) <> msg_type_Error ->
     process_next V w = do_process_next V w) /\
  do_process_next Op_rcv_defaults w = (Ret false, w) /\
  (forall prc,
     m_msg_type (this w) = msg_type_Notice ->
     m_prc (this w) = Some prc ->
     finish V false w = (Ret false, snd (read_msg prc w)) /\
     is_done (this (snd (read_msg prc w))) = is_done (this w) /\
     m_stage (this (snd (read_msg prc w))) = HEADER /\
     ext (snd (read_msg prc w)) = ext w) /\
  (m_msg_type (this w) <> msg_type_Notice ->
     finish Op_rcv_defaults false w
       = (saved_error_outcome (this w) true, completed w) /\
     is_done (this (completed w)) = true) /\
  (forall prc ep t decode frames rest fuel,
     awaits_header prc w ->
     as_Error_processor prc = Some ep ->
     (forall x, fst (message_end prc x) = Continue) ->
     byte_val t = msg_type_Notice ->
     decoder (m_side (m_proto w)) msg_type_Notice = Some decode ->
     Forall (fun pf => 1 + Z.of_nat (length (fst pf)) <= max_rd_size /\
                       decode (fst pf) = Msg_Notice (snd pf)) frames ->
     incoming (m_str (m_proto w))
       = flat_map (fun pf => frame_bytes t (fst pf)) frames ++ rest ->
     exists w',
       do_wait V (length frames + fuel) w = do_wait V fuel w' /\
       awaits_header prc w' /\
       is_done (this w') = is_done (this w) /\
       ext w' = notices_seen prc ep frames (ext w) /\
       incoming (m_str (m_proto w')) = rest) /\
  (forall prc b0 b1 b2 b3 t payload rest fuel,
     awaits_header prc w ->
     incoming (m_str (m_proto w)) = [b0; b1; b2; b3; t] ++ payload ++ rest ->
     le_u32 b0 b1 b2 b3 = 1 + Z.of_nat (length payload) ->
     le_u32 b0 b1 b2 b3 <= max_rd_size ->
     byte_val t <> msg_type_Notice ->
     byte_val t <> msg_type_Error ->
     exists w',
       do_wait Op_rcv_defaults (S fuel) w
         = Some (Throw (UnexpectedMessage (byte_val t)), w') /\
       is_done (this w') = true /\
       ext w' = ext w /\
       incoming (m_str (m_proto w')) = rest /\
       m_rd_op (m_proto w') = None).
Proof.
  split; [apply process_next_Notice|].
  split; [apply process_next_other|].
  split; [reflexivity|].
  split; [|split; [|split]].
  - intros prc Ht Hp. split.
    + apply finish_continues; [now apply process_next_Notice | exact Hp].
    + unfold read_msg. unfold_M. simpl. auto.
  - intros Hn. split; [|reflexivity].
    apply finish_stops. now apply process_next_defaults.
  - intros prc ep t decode frames rest fuel Hw Hep Hgo Ht Hdec Hall Hin.
    destruct (do_wait_Notices V prc ep t decode frames rest fuel Hep Hgo Ht Hall
                w Hw Hdec Hin)
      as (w' & Hrun & Hw' & Hin' & Hext' & _ & Hbase').
    exists w'. repeat split; try apply Hw'; auto.
    unfold is_done, is_completed. now rewrite Hbase'.
  - intros prc b0 b1 b2 b3 t payload rest fuel Hw Hin Hsize Hmax Hn He.
    apply (do_wait_unexpected Op_rcv_defaults w prc b0 b1 b2 b3 t payload rest fuel);
      auto.
    + now apply next_msg_other.
    + intros w0 Ht. apply process_next_defaults. now rewrite Ht.
Qed.

(** [read_header] begins no second read. *)
Lemma read_header_settled (P : Protocol_impl) :
  m_msg_state (read_header P) = Msg_PAYLOAD \/
  exists n, m_rd_op (read_header P) = Some n.
Proof.
  unfold read_header.
  destruct (m_msg_state P) eqn:Hst; [|now left].
  destruct (m_rd_op P) as [n|] eqn:Hop; right.
  - now exists n.
  - now exists header_length.
Qed.

Lemma read_header_noop (P : Protocol_impl) :
  m_msg_state P = Msg_PAYLOAD \/ (exists n, m_rd_op P = Some n) ->
  read_header P = P.
Proof.
  unfold read_header. intros [-> | [n ->]]; [reflexivity|].
  now destruct (m_msg_state P).
Qed.

Lemma read_header_idem (P : Protocol_impl) :
  read_header (read_header P) = read_header P.
Proof.
  apply read_header_noop, read_header_settled.
Qed.

Lemma read_header_slot (o : option Op_rcv) (P : Protocol_impl) :
  read_header (set_m_rcv_op o P) = set_m_rcv_op o (read_header P).
Proof.
  unfold read_header. cbn [set_m_rcv_op m_msg_state m_rd_op].
  destruct (m_msg_state P), (m_rd_op P); try reflexivity.
Qed.

Lemma rcv_start_cases (V : Rcv) (prc : Processor_base) (P : Protocol_impl) (x : Ext) :
  rcv_start V prc P x =
    match m_rcv_op P with
    | Some op =>
        if Rcv_is_done V op x
        then resumed V prc Op_rcv_ctor (set_m_rcv_op (Some Op_rcv_ctor) P) (Rcv_ctor V x)
        else resumed V prc op P x
    | None =>
        resumed V prc Op_rcv_ctor (set_m_rcv_op (Some Op_rcv_ctor) P) (Rcv_ctor V x)
    end.
Proof.
  unfold rcv_start, resumed.
  destruct (m_rcv_op P) as [op|] eqn:Hslot.
  - destruct (Rcv_is_done V op x); cbn [set_m_rcv_op m_rcv_op].
    + reflexivity.
    + rewrite Hslot. cbv beta iota. now rewrite Hslot.
  - rewrite Hslot. reflexivity.
Qed.

Lemma resumed_read_msg (V : Rcv) (prc : Processor_base) (op : Op_rcv)
    (P : Protocol_impl) (x : Ext) :
  (forall p, resume V p = resume_stage p) ->
  resumed V prc op P x =
    (Ret tt,
     (set_m_rcv_op (Some (set_m_stage HEADER (set_m_prc (Some prc) op)))
                   (read_header P),
      x)).
Proof.
  intros Hres. unfold resumed. rewrite Hres. reflexivity.
Qed.

Lemma resumed_twice (V : Rcv) (prc : Processor_base) (op : Op_rcv)
    (P : Protocol_impl) (x : Ext) :
  (forall p, resume V p = resume_stage p) ->
  forall P' x' op',
    resumed V prc op P x = (Ret tt, (P', x')) ->
    m_rcv_op P' = Some op' ->
    Rcv_is_done V op' x' = false ->
    rcv_start V prc P' x' = (Ret tt, (P', x')).
Proof.
  intros Hres P' x' op' H1 Hslot Hrun.
  rewrite resumed_read_msg in H1 by exact Hres.
  injection H1 as <- <-.
  cbn [set_m_rcv_op m_rcv_op] in Hslot. injection Hslot as <-.
  rewrite rcv_start_cases. cbn [set_m_rcv_op m_rcv_op]. rewrite Hrun.
  rewrite resumed_read_msg by exact Hres.
  rewrite read_header_slot, read_header_idem. reflexivity.
Qed.

(** C6.  [rcv_start] removes the operation of the slot when there is one
    and it is done, constructs an [Rcv] only when the slot is then empty,
    and resumes the operation of the slot: a running operation is resumed
    as it is, nothing is constructed.  When [resume(prc)] is
    [resume_stage prc], that is [read_msg(prc)], a second [rcv_start] with
    the same processor, made while the operation is not done, leaves the
    protocol object, the operation and the world outside exactly as the
    first call left them: nothing is read or decoded twice and nothing is
    dropped from the stream. *)
Theorem rcv_start_spec (V : Rcv) (prc : Processor_base) (P : Protocol_impl) (x : Ext) :
  (m_rcv_op P = None ->
     rcv_start V prc P x
       = resumed V prc Op_rcv_ctor (set_m_rcv_op (Some Op_rcv_ctor) P) (Rcv_ctor V x)) /\
  (forall op,
     m_rcv_op P = Some op -> Rcv_is_done V op x = true ->
     rcv_start V prc P x
       = resumed V prc Op_rcv_ctor (set_m_rcv_op (Some Op_rcv_ctor) P) (Rcv_ctor V x)) /\
  (forall op,
     m_rcv_op P = Some op -> Rcv_is_done V op x = false ->
     rcv_start V prc P x = resumed V prc op P x) /\
  ((forall p, resume V p = resume_stage p) ->
   (exists P' x' op',
      rcv_start V prc P x = (Ret tt, (P', x')) /\ m_rcv_op P' = Some op') /\
   (forall P' x' op',
      rcv_start V prc P x = (Ret tt, (P', x')) ->
      m_rcv_op P' = Some op' ->
      Rcv_is_done V op' x' = false ->
      rcv_start V prc P' x' = (Ret tt, (P', x')))).
Proof.
  rewrite rcv_start_cases.
  split; [now intros ->|].
  split; [now intros op -> ->|].
  split; [now intros op -> ->|].
  intros Hres. split.
  - destruct (m_rcv_op P) as [op|]; [destruct (Rcv_is_done V op x)|];
      rewrite resumed_read_msg by exact Hres; eauto.
  - intros P' x' op'.
    destruct (m_rcv_op P) as [op|]; [destruct (Rcv_is_done V op x)|];
      apply resumed_twice; exact Hres.
Qed.

(** The receive path keeps the buffers within the maximum. *)
Lemma keeps_ret {A} (a : A) : keeps_buffers (ret a).
Proof. intros w Hw. exact Hw. Qed.

Lemma keeps_throw {A} (e : Error) : keeps_buffers (@throw A e).
Proof. intros w Hw. exact Hw. Qed.

Lemma keeps_bind {A B} (c : M A) (k : A -> M B) :
  keeps_buffers c -> (forall a, keeps_buffers (k a)) -> keeps_buffers (bind c k).
Proof.
  intros Hc Hk w Hw. unfold bind.
  specialize (Hc w Hw). destruct (c w) as [[a | e |] w']; simpl in *; auto.
  now apply Hk.
Qed.

Lemma keeps_get_this : keeps_buffers get_this.
Proof. intros w Hw. exact Hw. Qed.

Lemma keeps_get_proto : keeps_buffers get_proto.
Proof. intros w Hw. exact Hw. Qed.

Lemma keeps_update_this (f : Op_rcv -> Op_rcv) : keeps_buffers (update_this f).
Proof. intros w Hw. exact Hw. Qed.

Lemma keeps_callback {A} (f : Ext -> A * Ext) : keeps_buffers (callback f).
Proof.
  intros w Hw. unfold callback. now destruct (f (ext w)).
Qed.

Lemma keeps_deref {A} (p : option A) : keeps_buffers (deref p).
Proof.
  destruct p; intros w Hw; exact Hw.
Qed.

Lemma keeps_on_proto {A} (f : Protocol_impl -> Outcome A * Protocol_impl) :
  (forall P, buffers_bounded P -> buffers_bounded (snd (f P))) ->
  keeps_buffers (on_proto f).
Proof.
  intros Hf w Hw. unfold on_proto.
  specialize (Hf (m_proto w) Hw). now destruct (f (m_proto w)).
Qed.

Ltac keeps :=
  repeat first
    [ apply keeps_ret | apply keeps_throw | apply keeps_get_this
    | apply keeps_get_proto | apply keeps_update_this | apply keeps_callback
    | apply keeps_deref
    | apply keeps_on_proto; intros ? ?; cbn [snd];
      solve [auto using rd_wait_bounded, read_payload_bounded, read_header_bounded]
    | apply keeps_bind; [|intros ?]
    | match goal with
      | |- keeps_buffers (match ?x with _ => _ end) => destruct x
      end ].

Lemma keeps_read_msg (prc : Processor_base) : keeps_buffers (read_msg prc).
Proof.
  unfold read_msg. keeps.
Qed.

Lemma keeps_process_msg (V : Rcv) (type : msg_type_t) (msg : Message) :
  Rcv_keeps_buffers V -> keeps_buffers (process_msg V type msg).
Proof.
  intros (_ & HV & _). unfold process_msg, callback_. keeps. apply HV.
Qed.

Lemma keeps_process_next (V : Rcv) :
  Rcv_keeps_buffers V -> keeps_buffers (process_next V).
Proof.
  intros (_ & _ & HV). unfold process_next. keeps. apply HV.
Qed.

Lemma keeps_next_msg (V : Rcv) (type : msg_type_t) :
  Rcv_keeps_buffers V -> keeps_buffers (next_msg V type).
Proof.
  intros (HV & _). unfold next_msg. keeps. apply HV.
Qed.

Lemma keeps_payload_stage (V : Rcv) :
  Rcv_keeps_buffers V -> keeps_buffers (payload_stage V).
Proof.
  intros HV.
  unfold payload_stage, dispatch, save_error, callback_.
  keeps; first [now apply keeps_process_msg | apply HV].
Qed.

Lemma keeps_header_stage (V : Rcv) :
  Rcv_keeps_buffers V -> keeps_buffers (header_stage V).
Proof.
  intros HV.
  unfold header_stage, save_error.
  keeps; first [now apply keeps_next_msg | apply HV].
Qed.

Lemma keeps_do_read_msg (V : Rcv) :
  Rcv_keeps_buffers V -> keeps_buffers (do_read_msg V).
Proof.
  intros HV. unfold do_read_msg.
  apply keeps_bind; [apply keeps_get_this|]. intros op.
  destruct (m_stage op).
  - apply keeps_bind; [now apply keeps_header_stage|].
    intros []; [apply keeps_ret | now apply keeps_payload_stage].
  - now apply keeps_payload_stage.
  - apply keeps_ret.
Qed.

Lemma keeps_finish (V : Rcv) (stop : bool) :
  Rcv_keeps_buffers V -> keeps_buffers (finish V stop).
Proof.
  intros HV. unfold finish.
  apply keeps_bind.
  - destruct stop; [apply keeps_ret | now apply keeps_process_next].
  - intros []; unfold read_msg_same, throw_saved_error; keeps.
Qed.

Lemma do_wait_bounded (V : Rcv) (fuel : nat) :
  Rcv_keeps_buffers V ->
  forall w r w',
    buffers_bounded (m_proto w) ->
    do_wait V fuel w = Some (r, w') ->
    buffers_bounded (m_proto w').
Proof.
  intros HV. induction fuel as [|fuel IH]; intros w r w' Hw Hrun; [discriminate|].
  cbn [do_wait] in Hrun.
  assert (Hstep : keeps_buffers (bind (do_read_msg V) (fun stop => finish V stop))).
  { apply keeps_bind; [now apply keeps_do_read_msg|].
    intros stop. now apply keeps_finish. }
  specialize (Hstep w Hw).
  destruct (bind (do_read_msg V) (fun stop => finish V stop) w) as [[[] | e |] w1];
    simpl in Hstep.
  - now injection Hrun as <- <-.
  - now apply (IH w1 r w').
  - now injection Hrun as <- <-.
  - now injection Hrun as <- <-.
Qed.

Lemma Op_rcv_defaults_keep_buffers : Rcv_keeps_buffers Op_rcv_defaults.
Proof.
  unfold Rcv_keeps_buffers. simpl.
  split; [|split]; intros; apply keeps_ret.
Qed.

(** C8.  The maximum size of either buffer is 1 GiB.  A receive whose next
    header declares a size of 0 or a size over the maximum ends in an error
    right after the header: no callback is made, the read buffer keeps its
    size and no payload read is begun.  A message whose frame would be over
    the maximum is refused with the write side untouched.  Whatever sequence
    of buffer operations runs, no buffer is ever larger than the maximum;
    nor is one after a receive, however it ends, as long as the virtual
    functions of the operation leave the buffers alone, as [Op_rcv]'s own
    do. *)
Theorem frame_size_bounded
    (V : Rcv) (w : World) (b0 b1 b2 b3 t : Byte.byte) (rest : bytes) (fuel : nat) :
  max_rd_size = 2 ^ 30 /\ max_wr_size = 2 ^ 30 /\
  (m_stage (this w) = HEADER ->
   m_msg_state (m_proto w) = Msg_HEADER ->
   m_rd_op (m_proto w) = Some header_length ->
   incoming (m_str (m_proto w)) = [b0; b1; b2; b3; t] ++ rest ->
   le_u32 b0 b1 b2 b3 = 0 \/ 2 ^ 30 < le_u32 b0 b1 b2 b3 ->
   exists e w',
     do_wait V (S fuel) w = Some (Throw e, w') /\
     (e = Frame_error \/ e = Oversize) /\
     ext w' = ext w /\
     m_rd_size (m_proto w') = m_rd_size (m_proto w) /\
     m_rd_op (m_proto w') = None /\
     incoming (m_str (m_proto w')) = rest) /\
  (forall type msg P,
     2 ^ 30 < header_length + Z.of_nat (length (serialize msg)) ->
     write_msg type msg P = (Throw Oversize, P)) /\
  (forall P P',
     buffers_bounded P -> rtc codec_step P P' -> buffers_bounded P') /\
  (forall n r w',
     Rcv_keeps_buffers V ->
     buffers_bounded (m_proto w) ->
     do_wait V n w = Some (r, w') ->
     buffers_bounded (m_proto w')) /\
  Rcv_keeps_buffers Op_rcv_defaults.
Proof.
  split; [reflexivity|]. split; [reflexivity|].
  split; [|split; [|split; [|split]]].
  - intros Hstage Hst Hop Hin Hsize.
    exists (if le_u32 b0 b1 b2 b3 =? 0 then Frame_error else Oversize).
    eexists. split; [|split].
    + cbn [do_wait].
      unfold do_read_msg. rewrite bind_assoc, bind_get_this, Hstage.
      cbv iota. unfold header_stage. rewrite !bind_assoc.
      unfold bind at 1. unfold on_proto.
      rewrite (rd_wait_rejects (m_proto w) b0 b1 b2 b3 t rest Hst Hop Hin Hsize).
      reflexivity.
    + destruct (le_u32 b0 b1 b2 b3 =? 0); auto.
    + repeat split.
  - intros type msg P Hbig. unfold write_msg.
    change max_wr_size with (2 ^ 30).
    apply Z.ltb_lt in Hbig. now rewrite Hbig.
  - intros P P' HP Hsteps. now apply (codec_steps_bounded P P').
  - intros n r w' HV Hw Hrun. now apply (do_wait_bounded V n HV w r w').
  - apply Op_rcv_defaults_keep_buffers.
Qed.

(** ** More of the header: deferred errors, processors, [rcv_start] *)

(** X1.  An error saved with [save_error] is the one [throw_saved_error]
    throws, whatever was saved before: a later [save_error] replaces the
    earlier error.  Saving an error does not complete the operation and
    touches neither the protocol object nor the world outside. *)
Theorem save_error_then_throw (e0 e : Error) (w : World) :
  bind (save_error e) (fun _ => throw_saved_error) w
    = (Throw e, snd (save_error e w)) /\
  bind (save_error e0) (fun _ => bind (save_error e) (fun _ => throw_saved_error)) w
    = (Throw e, snd (save_error e w)) /\
  is_completed (this (snd (save_error e w))) = is_completed (this w) /\
  is_done (this (snd (save_error e w))) = is_done (this w) /\
  m_stage (this (snd (save_error e w))) = m_stage (this w) /\
  m_prc (this (snd (save_error e w))) = m_prc (this w) /\
  m_proto (snd (save_error e w)) = m_proto w /\
  ext (snd (save_error e w)) = ext w.
Proof.
  split; [|split]; [reflexivity | | repeat split].
  rewrite !bind_save_error. unfold throw_saved_error.
  rewrite bind_get_this. reflexivity.
Qed.

(** X2.  [process_msg] decides on the member [m_msg_type], never on its
    argument [type]: with an [Error] or a [Notice] as the current message
    the argument has no effect at all; with any other current message the
    call is handed to [do_process_msg] with the arguments as they came,
    even when the argument names [Error] or [Notice], and no processor is
    needed.  With the [do_process_msg] of [Op_rcv] itself, which is empty,
    such a message changes nothing; and whatever the current message is and
    however the call ends, the operation and the protocol object are left
    as they were. *)
Theorem process_msg_by_current_type (V : Rcv) (msg : Message) (w : World) :
  (m_msg_type (this w) = msg_type_Error \/ m_msg_type (this w) = msg_type_Notice ->
   forall t1 t2, process_msg V t1 msg w = process_msg V t2 msg w) /\
  (m_msg_type (this w) <> msg_type_Error ->
   m_msg_type (this w) <> msg_type_Notice ->
   forall type,
     process_msg V type msg w = do_process_msg V type msg w /\
     process_msg Op_rcv_defaults type msg w = (Ret tt, w)) /\
  (forall type,
     this (snd (process_msg Op_rcv_defaults type msg w)) = this w /\
     m_proto (snd (process_msg Op_rcv_defaults type msg w)) = m_proto w).
Proof.
  split; [|split].
  - intros Ht t1 t2. unfold process_msg. rewrite !bind_get_this.
    destruct Ht as [Ht | Ht]; rewrite Ht, Z.eqb_refl.
    + now destruct (msg_type_Notice =? msg_type_Error).
    + reflexivity.
  - intros He Hn type. unfold process_msg. rewrite !bind_get_this.
    apply not_eq_sym, Z.eqb_neq in He. apply not_eq_sym, Z.eqb_neq in Hn.
    rewrite He, Hn. split; [reflexivity|]. now destruct w.
  - intros type. unfold process_msg, Op_rcv_defaults. unfold_M.
    unfold ret, undefined. simpl.
    destruct (msg_type_Notice =? m_msg_type (this w));
      [|destruct (msg_type_Error =? m_msg_type (this w))].
    + destruct (m_prc (this w)) as [prc|]; [|now split].
      destruct (as_Error_processor prc) as [ep|]; [|now split].
      destruct (cast_Notice msg) as [frame|]; now split.
    + destruct (m_prc (this w)) as [prc|]; [|now split].
      destruct (as_Error_processor prc) as [ep|]; [|now split].
      destruct (cast_Error msg) as [err|]; now split.
    + now split.
Qed.

(** X3.  [read_msg()] reads with the processor of the last
    [read_msg(prc)]: on an operation that has a processor it is
    [read_msg(prc)] with that processor, so after any [read_msg(prc)] it
    does what a second [read_msg(prc)] does, and it never changes the
    processor.  On an operation that has none, as one that has just been
    constructed, its assertion fails and nothing is changed. *)
Theorem read_msg_same_processor (prc : Processor_base) (w : World) :
  (m_prc (this w) = Some prc -> read_msg_same w = read_msg prc w) /\
  bind (read_msg prc) (fun _ => read_msg_same) w
    = bind (read_msg prc) (fun _ => read_msg prc) w /\
  m_prc (this (snd (read_msg_same w))) = m_prc (this w) /\
  (m_prc (this w) = None -> read_msg_same w = (Undefined, w)) /\
  (forall P x,
     read_msg_same {| this := Op_rcv_ctor; m_proto := P; ext := x |}
       = (Undefined, {| this := Op_rcv_ctor; m_proto := P; ext := x |})).
Proof.
  split; [|split; [|split; [|split]]].
  - intros Hp. unfold read_msg_same. rewrite bind_get_this, Hp. reflexivity.
  - unfold read_msg_same, read_msg. run. reflexivity.
  - unfold read_msg_same. rewrite bind_get_this.
    destruct (m_prc (this w)) as [p|] eqn:Hp; [|exact Hp].
    unfold read_msg. run. reflexivity.
  - intros Hp. unfold read_msg_same. rewrite bind_get_this, Hp. reflexivity.
  - reflexivity.
Qed.

(** X4.  When [resume(prc)] is [read_msg(prc)], [rcv_start] leaves an
    operation in the slot that uses the given processor and is at the
    header stage.  A running operation is kept with everything else it
    holds: its completion flag, its saved error and the message it is at;
    so a [rcv_start] with another processor only changes the processor.  In
    place of a finished operation, or in an empty slot, there is a new
    operation: it is not completed and has no saved error, whatever the
    finished one held. *)
Theorem rcv_start_operation
    (V : Rcv) (prc : Processor_base) (P : Protocol_impl) (x : Ext) :
  (forall p, resume V p = read_msg p) ->
  exists op',
    m_rcv_op (fst (snd (rcv_start V prc P x))) = Some op' /\
    m_prc op' = Some prc /\
    m_stage op' = HEADER /\
    (forall op,
       m_rcv_op P = Some op -> Rcv_is_done V op x = false ->
       op' = set_m_stage HEADER (set_m_prc (Some prc) op) /\
       is_completed op' = is_completed op /\
       m_error op' = m_error op /\
       m_msg_type op' = m_msg_type op /\
       m_msg_size op' = m_msg_size op /\
       snd (snd (rcv_start V prc P x)) = x) /\
    (m_rcv_op P = None \/
     (exists op, m_rcv_op P = Some op /\ Rcv_is_done V op x = true) ->
     op' = set_m_stage HEADER (set_m_prc (Some prc) Op_rcv_ctor) /\
     is_completed op' = false /\
     is_done op' = false /\
     m_error op' = None /\
     snd (snd (rcv_start V prc P x)) = Rcv_ctor V x).
Proof.
  intros Hres. rewrite rcv_start_cases.
  assert (Hr : forall op Q y,
             resumed V prc op Q y =
               (Ret tt,
                (set_m_rcv_op (Some (set_m_stage HEADER (set_m_prc (Some prc) op)))
                              (read_header Q), y))).
  { intros op Q y. unfold resumed. rewrite Hres. reflexivity. }
  destruct (m_rcv_op P) as [op|] eqn:Hslot;
    [destruct (Rcv_is_done V op x) eqn:Hdone|]; rewrite Hr; sim.
  - eexists. split; [reflexivity|].
    split; [reflexivity|]. split; [reflexivity|]. split.
    + intros op0 Heq Hd. injection Heq as <-. congruence.
    + intros _. now repeat split.
  - eexists. split; [reflexivity|].
    split; [reflexivity|]. split; [reflexivity|]. split.
    + intros op0 Heq Hd. injection Heq as <-. now repeat split.
    + intros [Hn | (op0 & Heq & Hd)]; [discriminate|].
      injection Heq as <-. congruence.
  - eexists. split; [reflexivity|].
    split; [reflexivity|]. split; [reflexivity|]. split.
    + intros op0 Heq. discriminate.
    + intros _. now repeat split.
Qed.

End Engine.

(** ** A recording processor and a sample connection

    The world outside is the list of the callbacks made so far.  Type tags 1
    and 11 stand for [msg_type::Error] and [msg_type::Notice], tag 0 for a
    message with no special treatment. *)

Inductive Call :=
| Call_message_begin (type : msg_type_t) (size : size_t)
| Call_raw_payload (data : bytes)
| Call_message_end
| Call_error (code severity : Z) (sql_state : string) (msg : string)
| Call_notice (type scope : Z) (payload : bytes).

Definition recorder_ep : @Error_processor (list Call) string :=
  {| error := fun code severity sql_state msg log =>
                log ++ [Call_error code severity sql_state msg];
     notice := fun type scope payload log =>
                 log ++ [Call_notice type scope payload] |}.

Definition recorder : @Processor_base (list Call) string :=
  {| message_begin := fun type size log => (false, log ++ [Call_message_begin type size]);
     raw_payload := fun data log => log ++ [Call_raw_payload data];
     message_end := fun log => (Continue, log ++ [Call_message_end]);
     as_Error_processor := Some recorder_ep |}.

Definition sample_Error : msg_type_t := 1.
Definition sample_Notice : msg_type_t := 11.

Definition access_denied : Mysqlx_Error :=
  {| err_code := 1045; err_severity := 0;
     err_sql_state := "28000"; err_msg := "Access denied" |}.

Definition deprecated_warning : Mysqlx_Notice_Frame :=
  {| frame_type := 1; frame_scope := 2; frame_payload := [Byte.x64; Byte.x65] |}.

(** A registry with three server messages; the decoders stand in for the
    protobuf parsers. *)
Definition sample_decoder (side : Protocol_side) (type : msg_type_t)
    : option (bytes -> Message) :=
  match side with
  | SERVER =>
      if type =? 0 then Some (fun data => Msg_other "Mysqlx::Ok" data)
      else if type =? sample_Error then Some (fun _ => Msg_Error access_denied)
      else if type =? sample_Notice then Some (fun _ => Msg_Notice deprecated_warning)
      else None
  | CLIENT => None
  end.

Definition sample_serialize (msg : Message) : bytes :=
  match msg with
  | Msg_other _ data => data
  | _ => []
  end.

Definition sample_MSG_LIST : list Msg_entry :=
  [ {| msg_side := SERVER; msg_class := "Mysqlx::Ok"; msg_name := "Ok"; msg_tag := 0 |};
    {| msg_side := SERVER; msg_class := "Mysqlx::Error"; msg_name := "Error";
       msg_tag := sample_Error |};
    {| msg_side := SERVER; msg_class := "Mysqlx::Notice::Frame"; msg_name := "Notice";
       msg_tag := sample_Notice |};
    {| msg_side := CLIENT; msg_class := "Mysqlx::Session::Close"; msg_name := "Close";
       msg_tag := 7 |} ].

(** A client-side protocol object, which expects messages from the server,
    on a stream that holds [input]. *)
Definition connection (input : bytes) : @Protocol_impl (list Call) string :=
  {| m_str := {| incoming := input; outgoing := [] |};
     m_side := SERVER; m_msg_state := Msg_HEADER;
     m_rd_buf := []; m_rd_size := 16; m_rd_op := None;
     proto_msg_type := 0; proto_msg_size := 0;
     m_wr_buf := []; m_wr_size := 16; m_wr_op := None;
     m_snd_op := None; m_rcv_op := None |}.

(** A fresh receive operation, resumed with the recorder. *)
Definition receiving (input : bytes) : @World (list Call) string :=
  snd (read_msg recorder
         {| this := Op_rcv_ctor; m_proto := connection input; ext := [] |}).

(** An [Error] frame with a 3 byte payload, followed by an [Ok] frame. *)
Definition error_then_ok : bytes :=
  [Byte.x04; Byte.x00; Byte.x00; Byte.x00; Byte.x01; Byte.x0a; Byte.x0b; Byte.x0c;
   Byte.x01; Byte.x00; Byte.x00; Byte.x00; Byte.x00].

(** A [Notice] frame, then an [Ok] frame, then one more [Ok] frame. *)
Definition notice_then_ok : bytes :=
  [Byte.x03; Byte.x00; Byte.x00; Byte.x00; Byte.x0b; Byte.x64; Byte.x65;
   Byte.x01; Byte.x00; Byte.x00; Byte.x00; Byte.x00;
   Byte.x01; Byte.x00; Byte.x00; Byte.x00; Byte.x00].

(** A header that declares 4 GiB - 1. *)
Definition oversize_header : bytes :=
  [Byte.xff; Byte.xff; Byte.xff; Byte.xff; Byte.x0b; Byte.x00].

(** A receive variant that expects [Ok] and stops after it. *)
Definition Rcv_ok : @Rcv (list Call) string :=
  {| do_next_msg := fun type => ret (if type =? 0 then EXPECTED else UNEXPECTED);
     do_process_msg := fun _ _ => ret tt;
     do_process_next := ret false;
     Rcv_is_done := fun op _ => is_done op;
     Rcv_ctor := fun x => x;
     resume := resume_stage |}.

(** A [Notice] frame, then an [Error] frame, then an [Ok] frame. *)
Definition notice_then_error : bytes :=
  [Byte.x03; Byte.x00; Byte.x00; Byte.x00; Byte.x0b; Byte.x64; Byte.x65] ++ error_then_ok.

(** The sample operation once the header of a message of the given type
    has been seen. *)
Definition seen (type : msg_type_t) : @World (list Call) string :=
  {| this := set_m_msg type 2 (this (receiving []));
     m_proto := m_proto (receiving []);
     ext := [] |}.

(** A saved error on the sample operation. *)
Definition failed : @World (list Call) string :=
  {| this := set_m_error (Some Eos) (this (receiving []));
     m_proto := m_proto (receiving []);
     ext := [] |}.

(** The sample connection after one [rcv_start]. *)
Definition started : Outcome unit * (@Protocol_impl (list Call) string * list Call) :=
  rcv_start Rcv_ok recorder (connection error_then_ok) [].

(** Overloads that hand the serialised message to the processor. *)
Definition sample_overloads (e : Msg_entry) (msg : Message)
    (prc : @Processor_base (list Call) string) : @M (list Call) string unit :=
  callback_ (raw_payload prc (sample_serialize msg)).

(** The sample receives, computed. *)
Example receive_error :
  option_map (fun r => (fst r, ext (snd r), incoming (m_str (m_proto (snd r)))))
    (do_wait sample_Error sample_Notice (fun s => s) sample_decoder Rcv_ok 1
             (receiving error_then_ok))
  = Some (Ret tt,
          [Call_message_begin 1 3; Call_error 1045 2 "28000" "Access denied";
           Call_message_end],
          [Byte.x01; Byte.x00; Byte.x00; Byte.x00; Byte.x00]).
Proof. vm_compute. reflexivity. Qed.

Example receive_notice_then_ok :
  option_map (fun r => (fst r, ext (snd r), incoming (m_str (m_proto (snd r)))))
    (do_wait sample_Error sample_Notice (fun s => s) sample_decoder Rcv_ok 2
             (receiving notice_then_ok))
  = Some (Ret tt,
          [Call_message_begin 11 2; Call_notice 1 2 [Byte.x64; Byte.x65];
           Call_message_end; Call_message_begin 0 0; Call_message_end],
          [Byte.x01; Byte.x00; Byte.x00; Byte.x00; Byte.x00]).
Proof. vm_compute. reflexivity. Qed.

Example receive_oversize :
  option_map (fun r => (fst r, ext (snd r), m_rd_size (m_proto (snd r))))
    (do_wait sample_Error sample_Notice (fun s => s) sample_decoder Rcv_ok 1
             (receiving oversize_header))
  = Some (Throw Oversize, [], 16).
Proof. vm_compute. reflexivity. Qed.

(** ** The theorems at the sample connection *)

(** [next_msg] on the sample types. *)
Lemma next_msg_spec_witness :
  next_msg sample_Error sample_Notice (@Op_rcv_defaults (list Call) string) 1
    = ret EXPECTED /\
  next_msg sample_Error sample_Notice (@Op_rcv_defaults (list Call) string) 11
    = ret EXPECTED /\
  next_msg sample_Error sample_Notice (@Op_rcv_defaults (list Call) string) 13
    = ret UNEXPECTED /\
  next_msg sample_Error sample_Notice Rcv_ok 0 = do_next_msg Rcv_ok 0.
Proof.
  pose proof (next_msg_spec sample_Error sample_Notice
                (@Op_rcv_defaults (list Call) string)) as H.
  pose proof (next_msg_spec sample_Error sample_Notice Rcv_ok 0) as H0.
  split; [apply (proj1 (H 1)); left; reflexivity|].
  split; [apply (proj1 (H 11)); right; reflexivity|].
  split.
  - apply (proj2 (proj2 (proj2 (H 13)))); discriminate.
  - apply (proj1 (proj2 H0)); discriminate.
Defined.

(** [process_next], the continuation and two sample receives: one passes
    over a [Notice], one ends at a frame that is not expected. *)
Lemma process_next_spec_witness :
  process_next sample_Error sample_Notice Rcv_ok (seen 11) = (Ret true, seen 11) /\
  process_next sample_Error sample_Notice Rcv_ok (seen 0) = (Ret false, seen 0) /\
  finish sample_Error sample_Notice Rcv_ok false (seen 11)
    = (Ret false, snd (read_msg recorder (seen 11))) /\
  finish sample_Error sample_Notice Op_rcv_defaults false (seen 0)
    = (Ret true, completed (seen 0)) /\
  (exists w',
     do_wait sample_Error sample_Notice (fun s => s) sample_decoder Rcv_ok 2
             (receiving notice_then_ok)
       = do_wait sample_Error sample_Notice (fun s => s) sample_decoder Rcv_ok 1 w' /\
     ext w' = [Call_message_begin 11 2; Call_notice 1 2 [Byte.x64; Byte.x65];
               Call_message_end] /\
     incoming (m_str (m_proto w'))
       = [Byte.x01; Byte.x00; Byte.x00; Byte.x00; Byte.x00;
          Byte.x01; Byte.x00; Byte.x00; Byte.x00; Byte.x00]) /\
  (exists w',
     do_wait sample_Error sample_Notice (fun s => s) sample_decoder Op_rcv_defaults 1
             (receiving [Byte.x01; Byte.x00; Byte.x00; Byte.x00; Byte.x00; Byte.x07])
       = Some (Throw (UnexpectedMessage 0), w') /\
     is_done (this w') = true /\
     ext w' = [] /\
     incoming (m_str (m_proto w')) = [Byte.x07]).
Proof.
  pose proof (process_next_spec sample_Error sample_Notice (fun s => s)
                sample_decoder Rcv_ok (seen 11))
    as (H1 & _ & _ & H4 & _).
  pose proof (process_next_spec sample_Error sample_Notice (fun s => s)
                sample_decoder Rcv_ok (seen 0))
    as (_ & H2 & _).
  pose proof (process_next_spec sample_Error sample_Notice (fun s => s)
                sample_decoder Op_rcv_defaults (seen 0))
    as (_ & _ & _ & _ & H5 & _).
  pose proof (process_next_spec sample_Error sample_Notice (fun s => s)
                sample_decoder Rcv_ok (receiving notice_then_ok))
    as (_ & _ & _ & _ & _ & H6 & _).
  pose proof (process_next_spec sample_Error sample_Notice (fun s => s)
                sample_decoder Op_rcv_defaults
                (receiving [Byte.x01; Byte.x00; Byte.x00; Byte.x00; Byte.x00; Byte.x07]))
    as (_ & _ & _ & _ & _ & _ & H7).
  split; [apply H1; reflexivity|].
  split; [rewrite H2 by discriminate; reflexivity|].
  split; [apply (H4 recorder); reflexivity|].
  split; [apply H5; discriminate|].
  split.
  - destruct (H6 recorder recorder_ep Byte.x0b
                 (fun _ => Msg_Notice deprecated_warning)
                 [([Byte.x64; Byte.x65], deprecated_warning)]
                 [Byte.x01; Byte.x00; Byte.x00; Byte.x00; Byte.x00;
                  Byte.x01; Byte.x00; Byte.x00; Byte.x00; Byte.x00] 1%nat)
      as (w' & Hrun & _ & _ & Hext & Hin); try reflexivity.
    + repeat split.
    + repeat constructor. vm_compute. discriminate.
    + exists w'. auto.
  - destruct (H7 recorder Byte.x01 Byte.x00 Byte.x00 Byte.x00 Byte.x00 []
                 [Byte.x07] 0%nat)
      as (w' & Hrun & Hdone & Hext & Hin & _); try reflexivity.
    + repeat split.
    + vm_compute. discriminate.
    + discriminate.
    + discriminate.
    + exists w'. auto.
Defined.

(** [process_msg] on the sample [Error] and the sample [Notice]. *)
Lemma process_msg_Error_Notice_witness :
  process_msg sample_Error sample_Notice (fun s => s) Rcv_ok 1
              (Msg_Error access_denied) (seen 1)
    = (Ret tt,
       {| this := this (seen 1); m_proto := m_proto (seen 1);
          ext := [Call_error 1045 2 "28000" "Access denied"] |}) /\
  process_msg sample_Error sample_Notice (fun s => s) Rcv_ok 11
              (Msg_Notice deprecated_warning) (seen 11)
    = (Ret tt,
       {| this := this (seen 11); m_proto := m_proto (seen 11);
          ext := [Call_notice 1 2 [Byte.x64; Byte.x65]] |}).
Proof.
  assert (Hne : sample_Error <> sample_Notice) by discriminate.
  split.
  - apply (proj1 (process_msg_Error_Notice sample_Error sample_Notice (fun s => s)
                    Rcv_ok 1 (seen 1) recorder recorder_ep Hne eq_refl eq_refl)).
    reflexivity.
  - apply (proj1 (proj2 (process_msg_Error_Notice sample_Error sample_Notice
                           (fun s => s) Rcv_ok 11 (seen 11) recorder recorder_ep
                           Hne eq_refl eq_refl))).
    reflexivity.
Defined.

(** The sample receives that meet an [Error] frame, at once and after a
    [Notice]. *)
Lemma Error_terminates_witness :
  (exists w',
     do_wait sample_Error sample_Notice (fun s => s) sample_decoder Rcv_ok 1
             (receiving error_then_ok) = Some (Ret tt, w') /\
     is_done (this w') = true /\
     m_stage (this w') = DONE /\
     ext w' = [Call_message_begin 1 3; Call_error 1045 2 "28000" "Access denied";
               Call_message_end] /\
     incoming (m_str (m_proto w')) = [Byte.x01; Byte.x00; Byte.x00; Byte.x00; Byte.x00] /\
     m_rd_op (m_proto w') = None) /\
  (exists w',
     do_wait sample_Error sample_Notice (fun s => s) sample_decoder Rcv_ok 2
             (receiving notice_then_error) = Some (Ret tt, w') /\
     is_done (this w') = true /\
     m_stage (this w') = DONE /\
     ext w' = [Call_message_begin 11 2; Call_notice 1 2 [Byte.x64; Byte.x65];
               Call_message_end;
               Call_message_begin 1 3; Call_error 1045 2 "28000" "Access denied";
               Call_message_end] /\
     incoming (m_str (m_proto w')) = [Byte.x01; Byte.x00; Byte.x00; Byte.x00; Byte.x00] /\
     m_rd_op (m_proto w') = None).
Proof.
  assert (Hne : sample_Error <> sample_Notice) by discriminate.
  split.
  - pose proof (Error_terminates sample_Error sample_Notice (fun s => s)
       sample_decoder Rcv_ok
       (receiving error_then_ok) recorder recorder_ep
       Byte.x04 Byte.x00 Byte.x00 Byte.x00 Byte.x01
       [Byte.x0a; Byte.x0b; Byte.x0c]
       [Byte.x01; Byte.x00; Byte.x00; Byte.x00; Byte.x00]
       (fun _ => Msg_Error access_denied) access_denied 0 Hne)
      as (_ & _ & H3 & _).
    apply H3; try reflexivity.
    + repeat apply conj; reflexivity.
    + vm_compute. discriminate.
  - pose proof (Error_terminates sample_Error sample_Notice (fun s => s)
       sample_decoder Rcv_ok
       (receiving notice_then_error) recorder recorder_ep
       Byte.x04 Byte.x00 Byte.x00 Byte.x00 Byte.x01
       [Byte.x0a; Byte.x0b; Byte.x0c]
       [Byte.x01; Byte.x00; Byte.x00; Byte.x00; Byte.x00]
       (fun _ => Msg_Error access_denied) access_denied 0 Hne)
      as (_ & _ & _ & H4).
    apply (H4 Byte.x0b (fun _ => Msg_Notice deprecated_warning)
              [([Byte.x64; Byte.x65], deprecated_warning)]); try reflexivity.
    + repeat apply conj; reflexivity.
    + repeat constructor. vm_compute. discriminate.
    + vm_compute. discriminate.
Defined.

(** C5 as the specification states it does not hold: after
    [throw_saved_error()] has thrown the saved error, the error is still
    saved, and the next call throws it again. *)
Lemma throw_saved_error_not_cleared :
  fst (throw_saved_error failed) = Throw Eos /\
  m_error (this (snd (throw_saved_error failed))) = Some Eos /\
  m_error (this (snd (throw_saved_error failed))) <> None /\
  fst (throw_saved_error (snd (throw_saved_error failed))) = Throw Eos.
Proof.
  repeat split. discriminate.
Qed.

(** [rcv_start] twice on the sample connection. *)
Lemma rcv_start_spec_witness :
  fst started = Ret tt /\
  m_rd_op (fst (snd started)) = Some header_length /\
  rcv_start Rcv_ok recorder (fst (snd started)) (snd (snd started)) = started.
Proof.
  split; [reflexivity|]. split; [reflexivity|].
  pose proof (rcv_start_spec Rcv_ok recorder (connection error_then_ok) [])
    as (_ & _ & _ & H).
  destruct (H (fun p => eq_refl)) as [_ Htwice].
  apply (Htwice (fst (snd started)) (snd (snd started))
                (set_m_stage HEADER (set_m_prc (Some recorder) Op_rcv_ctor)));
    reflexivity.
Defined.

(** The case labels of the sample list are distinct. *)
Lemma sample_labels_distinct (e1 e2 : Msg_entry) :
  In e1 sample_MSG_LIST -> In e2 sample_MSG_LIST ->
  msg_side e1 = msg_side e2 -> msg_tag e1 = msg_tag e2 -> e1 = e2.
Proof.
  unfold sample_MSG_LIST. simpl.
  intros H1 H2 Hs Ht.
  repeat (destruct H1 as [<- | H1]; [|]); try contradiction;
    repeat (destruct H2 as [<- | H2]; [|]); try contradiction;
    simpl in Hs, Ht; try reflexivity; discriminate.
Qed.

(** The dispatch of a listed and of an unlisted type on the sample list. *)
Lemma process_msg_with_total_witness :
  process_msg_with sample_MSG_LIST (@Processor_base (list Call) string)
      sample_overloads 0 (Msg_other "Mysqlx::Ok" [Byte.x00]) recorder (seen 0)
    = (Ret tt,
       {| this := this (seen 0); m_proto := m_proto (seen 0);
          ext := [Call_raw_payload [Byte.x00]] |}) /\
  process_msg_with sample_MSG_LIST (@Processor_base (list Call) string)
      sample_overloads 7 (Msg_other "Mysqlx::Session::Close" []) recorder (seen 7)
    = (Throw UnknownMessage, seen 7).
Proof.
  split.
  - rewrite (proj1 (proj2
      (process_msg_with_total sample_MSG_LIST _ sample_overloads 0
         (Msg_other "Mysqlx::Ok" [Byte.x00]) recorder (seen 0)))
      {| msg_side := SERVER; msg_class := "Mysqlx::Ok"; msg_name := "Ok";
         msg_tag := 0 |}
      sample_labels_distinct (or_introl eq_refl) eq_refl eq_refl).
    reflexivity.
  - apply (proj2 (proj2
      (process_msg_with_total sample_MSG_LIST _ sample_overloads 7
         (Msg_other "Mysqlx::Session::Close" []) recorder (seen 7)))).
    unfold sample_MSG_LIST. simpl.
    intros e [<- | [<- | [<- | [<- | []]]]]; simpl; discriminate.
Defined.

(** The oversize header on the sample connection, and the buffers after a
    header read and a write. *)
Lemma frame_size_bounded_witness :
  (exists e w',
     do_wait sample_Error sample_Notice (fun s => s) sample_decoder Rcv_ok 1
             (receiving oversize_header) = Some (Throw e, w') /\
     (e = Frame_error \/ e = Oversize) /\
     ext w' = [] /\
     m_rd_size (m_proto w') = 16 /\
     m_rd_op (m_proto w') = None /\
     incoming (m_str (m_proto w')) = [Byte.x00]) /\
  buffers_bounded
    (snd (write_msg sample_serialize 0 (Msg_other "Mysqlx::Ok" [Byte.x00; Byte.x01])
            (snd (rd_wait (read_header (connection error_then_ok)))))) /\
  (exists r w',
     do_wait sample_Error sample_Notice (fun s => s) sample_decoder Rcv_ok 1
             (receiving error_then_ok) = Some (r, w') /\
     buffers_bounded (m_proto w')).
Proof.
  pose proof (frame_size_bounded sample_Error sample_Notice (fun s => s)
                sample_serialize sample_decoder Rcv_ok (receiving oversize_header)
                Byte.xff Byte.xff Byte.xff Byte.xff Byte.x0b [Byte.x00] 0)
    as (_ & _ & Hrej & _ & Hinv & _).
  pose proof (frame_size_bounded sample_Error sample_Notice (fun s => s)
                sample_serialize sample_decoder Rcv_ok (receiving error_then_ok)
                Byte.x04 Byte.x00 Byte.x00 Byte.x00 Byte.x01 [] 0)
    as (_ & _ & _ & _ & _ & Hrun & _).
  assert (Hstart : buffers_bounded (connection error_then_ok)).
  { unfold buffers_bounded. simpl. unfold max_rd_size, max_wr_size.
    repeat apply conj; try lia. discriminate. }
  split; [|split].
  - apply Hrej; try reflexivity.
    right. vm_compute. reflexivity.
  - apply (Hinv (connection error_then_ok)); [exact Hstart|].
    eapply rtc_l; [apply step_read_header|].
    eapply rtc_l; [apply step_rd_wait|].
    eapply rtc_l; [apply step_write_msg|].
    apply rtc_refl.
  - destruct (do_wait sample_Error sample_Notice (fun s => s) sample_decoder Rcv_ok 1
                      (receiving error_then_ok)) as [[r w']|] eqn:E;
      [|vm_compute in E; discriminate].
    exists r, w'. split; [reflexivity|].
    apply (Hrun 1%nat r w'); [| |exact E].
    + unfold Rcv_keeps_buffers. simpl. split; [|split]; intros; apply keeps_ret.
    + apply (Hinv (connection error_then_ok)); [exact Hstart|].
      eapply rtc_l; [apply step_read_header|]. apply rtc_refl.
Defined.

(** The current message of the sample operation is an [Error]: the
    argument of [process_msg] is of no account.  When it is an [Ok],
    [Op_rcv]'s own [process_msg] does nothing, also for an argument that
    names [Error]. *)
Lemma process_msg_by_current_type_witness :
  process_msg sample_Error sample_Notice (fun s => s) Rcv_ok 0
      (Msg_Error access_denied) (seen sample_Error)
    = process_msg sample_Error sample_Notice (fun s => s) Rcv_ok 5
        (Msg_Error access_denied) (seen sample_Error) /\
  process_msg sample_Error sample_Notice (fun s => s) Op_rcv_defaults sample_Error
      (Msg_Error access_denied) (seen 0)
    = (Ret tt, seen 0).
Proof.
  split.
  - apply (proj1 (process_msg_by_current_type sample_Error sample_Notice (fun s => s)
                    Rcv_ok (Msg_Error access_denied) (seen sample_Error))).
    left. reflexivity.
  - apply (proj1 (proj2 (process_msg_by_current_type sample_Error sample_Notice
                           (fun s => s) Rcv_ok (Msg_Error access_denied) (seen 0)))
             ltac:(discriminate) ltac:(discriminate) sample_Error).
Defined.

(** The sample operation reads with the recorder. *)
Lemma read_msg_same_processor_witness :
  read_msg_same (receiving []) = read_msg recorder (receiving []).
Proof.
  apply (proj1 (read_msg_same_processor recorder (receiving []))).
  reflexivity.
Defined.

(** The first [rcv_start] on the sample connection. *)
Lemma rcv_start_operation_witness :
  exists op',
    m_rcv_op (fst (snd (rcv_start Rcv_ok recorder (connection error_then_ok) [])))
      = Some op' /\
    m_prc op' = Some recorder /\
    is_completed op' = false /\
    m_error op' = None.
Proof.
  destruct (rcv_start_operation Rcv_ok recorder (connection error_then_ok) [])
    as (op' & Hslot & Hprc & _ & _ & Hnew); [reflexivity|].
  destruct Hnew as (_ & Hc & _ & He & _); [left; reflexivity|].
  exists op'. repeat apply conj; assumption.
Defined.

(** * The two sides of the protocol *)

(** X5.  [other_side] exchanges the two sides: applied twice it gives the
    side back, and it never returns the side it was given.  Its [default]
    arm, which throws, is not reached for a value of [Protocol_side]. *)
Theorem other_side_involutive (side : Protocol_side) :
  other_side (other_side side) = side /\
  other_side side <> side /\
  (forall side', other_side side = other_side side' -> side = side') /\
  (forall side', side' <> side -> side' = other_side side).
Proof.
  split; [|split; [|split]].
  - now destruct side.
  - now destruct side.
  - intros side'. now destruct side, side'.
  - intros side'. now destruct side, side'.
Qed.

(** * Byte order of the message size ([NTOHSIZE], [HTONSIZE])

    The size in a frame header is little-endian on the cable.  The two
    macros convert a variable of type [msg_size_t] between that order and
    the order of the host: on a big-endian platform both are
    [(S) = bswap32(S)], elsewhere both are empty. *)
Module Byte_order.

(** [bswap32] of [<sys/endian.h>], or [BSWAP_32] of [<sys/byteorder.h>]:
    the four bytes of a 32-bit value in the reverse order. *)
Definition bswap32 (x : Z) : Z :=
  Z.lor (Z.shiftl (Z.land x 255) 24)
    (Z.lor (Z.shiftl (Z.land (Z.shiftr x 8) 255) 16)
       (Z.lor (Z.shiftl (Z.land (Z.shiftr x 16) 255) 8)
          (Z.land (Z.shiftr x 24) 255))).

(** [NTOHSIZE(S)] and [HTONSIZE(S)], by the value of [BIG_ENDIAN] the
    header is compiled with; the result is the new value of [S]. *)
Definition NTOHSIZE (BIG_ENDIAN : bool) (S : msg_size_t) : msg_size_t :=
  if BIG_ENDIAN then bswap32 S else S.

Definition HTONSIZE (BIG_ENDIAN : bool) (S : msg_size_t) : msg_size_t :=
  if BIG_ENDIAN then bswap32 S else S.



Lemma lor_shiftl_add (a b k : Z) :
  0 <= k -> 0 <= b < 2 ^ k -> Z.lor (Z.shiftl a k) b = a * 2 ^ k + b.
Proof.
  intros Hk Hb. rewrite Z.shiftl_mul_pow2 by exact Hk.
  assert (Hland : Z.land (a * 2 ^ k) b = 0).
  { apply Z.bits_inj'. intros n Hn.
    rewrite Z.land_spec, Z.bits_0.
    destruct (Z.lt_ge_cases n k) as [Hlt | Hge].
    - rewrite Z.mul_pow2_bits_low by exact Hlt. reflexivity.
    - rewrite <- (Z.mod_small b (2 ^ k)) by exact Hb.
      rewrite Z.mod_pow2_bits_high by lia. apply andb_false_r. }
  rewrite <- Z.lxor_lor by exact Hland.
  symmetry. now apply Z.add_nocarry_lxor.
Qed.

Lemma land_255 (x : Z) : Z.land x 255 = x mod 256.
Proof.
  change 255 with (Z.ones 8). now rewrite Z.land_ones by lia.
Qed.

(** The four bytes of [x], from the low one, end up from the high one. *)
Lemma bswap32_bytes (x : Z) :
  bswap32 x =
    (x mod 256) * 16777216 + ((x / 256) mod 256) * 65536
      + ((x / 65536) mod 256) * 256 + (x / 16777216) mod 256.
Proof.
  unfold bswap32. rewrite !land_255, !Z.shiftr_div_pow2 by lia.
  change (2 ^ 8) with 256. change (2 ^ 16) with 65536.
  change (2 ^ 24) with 16777216.
  pose proof (Z.mod_pos_bound x 256 ltac:(lia)).
  pose proof (Z.mod_pos_bound (x / 256) 256 ltac:(lia)).
  pose proof (Z.mod_pos_bound (x / 65536) 256 ltac:(lia)).
  pose proof (Z.mod_pos_bound (x / 16777216) 256 ltac:(lia)).
  rewrite (lor_shiftl_add _ _ 8) by lia.
  rewrite (lor_shiftl_add _ _ 16) by lia.
  rewrite (lor_shiftl_add _ _ 24) by lia.
  lia.
Qed.

Lemma bswap32_digits (a b c d : Z) :
  0 <= a < 256 -> 0 <= b < 256 -> 0 <= c < 256 -> 0 <= d < 256 ->
  bswap32 (a + 256 * b + 65536 * c + 16777216 * d)
    = d + 256 * c + 65536 * b + 16777216 * a.
Proof.
  intros Ha Hb Hc Hd. rewrite bswap32_bytes.
  set (x := a + 256 * b + 65536 * c + 16777216 * d).
  assert (H0 : x mod 256 = a) by (subst x; Z.div_mod_to_equations; lia).
  assert (H1 : (x / 256) mod 256 = b) by (subst x; Z.div_mod_to_equations; lia).
  assert (H2 : (x / 65536) mod 256 = c) by (subst x; Z.div_mod_to_equations; lia).
  assert (H3 : (x / 16777216) mod 256 = d)
    by (subst x; Z.div_mod_to_equations; lia).
  rewrite H0, H1, H2, H3. lia.
Qed.

Lemma u32_digits (s : Z) :
  0 <= s < 2 ^ 32 ->
  exists a b c d,
    (0 <= a < 256) /\ (0 <= b < 256) /\ (0 <= c < 256) /\ (0 <= d < 256) /\
    s = a + 256 * b + 65536 * c + 16777216 * d.
Proof.
  intros Hs.
  exists (s mod 256), ((s / 256) mod 256), ((s / 65536) mod 256), (s / 16777216).
  change (2 ^ 32) with 4294967296 in Hs.
  repeat split; try (Z.div_mod_to_equations; lia).
Qed.

Lemma bswap32_involutive (s : Z) :
  0 <= s < 2 ^ 32 -> 0 <= bswap32 s < 2 ^ 32 /\ bswap32 (bswap32 s) = s.
Proof.
  intros Hs. destruct (u32_digits s Hs) as (a & b & c & d & Ha & Hb & Hc & Hd & ->).
  rewrite bswap32_digits by assumption.
  split; [change (2 ^ 32) with 4294967296; lia|].
  now rewrite bswap32_digits by assumption.
Qed.


(** X6.  On either kind of host [NTOHSIZE] and [HTONSIZE] keep a size
    within 32 bits and undo each other, so a size that went through both
    is the size there was. *)
Theorem size_byte_order_round_trip (BIG_ENDIAN : bool) (s : msg_size_t) :
  0 <= s < 2 ^ 32 ->
  0 <= NTOHSIZE BIG_ENDIAN s < 2 ^ 32 /\
  0 <= HTONSIZE BIG_ENDIAN s < 2 ^ 32 /\
  HTONSIZE BIG_ENDIAN (NTOHSIZE BIG_ENDIAN s) = s /\
  NTOHSIZE BIG_ENDIAN (HTONSIZE BIG_ENDIAN s) = s.
Proof.
  intros Hs. unfold NTOHSIZE, HTONSIZE.
  destruct BIG_ENDIAN; [|repeat split; lia].
  destruct (bswap32_involutive s Hs) as [Hr Hi]. repeat split; try lia; exact Hi.
Qed.


Lemma size_byte_order_round_trip_witness :
  HTONSIZE true (NTOHSIZE true 305419896) = 305419896 /\
  NTOHSIZE true 305419896 = 2018915346.
Proof.
  split.
  - apply (size_byte_order_round_trip true 305419896). lia.
  - reflexivity.
Defined.


End Byte_order.

(** * The send operation [Op_snd]

    "The work is done by protocol instance - this is just a simple
    wrapper": the operation calls [write_msg], [wr_cont] and [wr_wait] of
    the protocol object, which the header declares and does not define.
    They are taken as they come: each may return, throw or be undefined,
    and leaves the protocol object in some state. *)
Module Send.

Section Op_snd.

Context {Ext : Type} {sql_state_t : Type}.

Variable write_msg :
  msg_type_t -> Message ->
  @Protocol_impl Ext sql_state_t -> Outcome unit * @Protocol_impl Ext sql_state_t.
Variable wr_cont :
  @Protocol_impl Ext sql_state_t -> Outcome bool * @Protocol_impl Ext sql_state_t.
Variable wr_wait :
  @Protocol_impl Ext sql_state_t -> Outcome unit * @Protocol_impl Ext sql_state_t.

(** The operation, which has the members of [Op_base] only, and the
    protocol object behind its reference [m_proto]. *)
Record Snd_world := {
  snd_this : Op_base;
  snd_m_proto : @Protocol_impl Ext sql_state_t
}.

(** [m_completed = true;] *)
Definition set_completed (op : Op_base) : Op_base :=
  {| m_completed := true; m_error := m_error op |}.

(** [Op_snd(proto, type, msg)]: the base is constructed, then
    [m_proto.write_msg(type, msg)] is called; when that throws there is no
    operation. *)
Definition Op_snd_ctor (P : @Protocol_impl Ext sql_state_t)
    (type : msg_type_t) (msg : Message)
    : Outcome Op_base * @Protocol_impl Ext sql_state_t :=
  match write_msg type msg P with
  | (Ret _, P') => (Ret Op_base_ctor, P')
  | (Throw e, P') => (Throw e, P')
  | (Undefined, P') => (Undefined, P')
  end.

(** [do_cont()]. *)
Definition do_cont (w : Snd_world) : Outcome bool * Snd_world :=
  match wr_cont (snd_m_proto w) with
  | (Ret false, P') => (Ret false, {| snd_this := snd_this w; snd_m_proto := P' |})
  | (Ret true, P') =>
      (Ret true, {| snd_this := set_completed (snd_this w); snd_m_proto := P' |})
  | (Throw e, P') => (Throw e, {| snd_this := snd_this w; snd_m_proto := P' |})
  | (Undefined, P') => (Undefined, {| snd_this := snd_this w; snd_m_proto := P' |})
  end.

(** [do_wait()]. *)
Definition do_wait (w : Snd_world) : Outcome unit * Snd_world :=
  match wr_wait (snd_m_proto w) with
  | (Ret _, P') =>
      (Ret tt, {| snd_this := set_completed (snd_this w); snd_m_proto := P' |})
  | (Throw e, P') => (Throw e, {| snd_this := snd_this w; snd_m_proto := P' |})
  | (Undefined, P') => (Undefined, {| snd_this := snd_this w; snd_m_proto := P' |})
  end.

(** [do_get_result()], and [do_cancel()] of [Op_base]. *)
Definition do_get_result (w : Snd_world) : Outcome size_t * Snd_world :=
  (Throw (Generic_error "not implemented"), w).

Definition do_cancel (w : Snd_world) : Outcome unit * Snd_world :=
  (Throw (Generic_error "not implemented"), w).

(** [do_cont()] called up to [n] times, until it returns [true] or does
    not return: how a caller drives the operation. *)
Fixpoint drive (n : nat) (w : Snd_world) : Outcome bool * Snd_world :=
  match n with
  | O => (Ret false, w)
  | S n' =>
      match do_cont w with
      | (Ret false, w') => drive n' w'
      | r => r
      end
  end.

(** X8.  A send operation is completed exactly by a write that has
    completed.  A new one is not completed and has no saved error, and
    exists only if [write_msg] returned.  [do_cont] returns what [wr_cont]
    returns and marks the operation completed when that is [true];
    [do_wait] marks it completed when [wr_wait] returns.  When the write
    is not done yet, throws or is undefined the operation is unchanged, so
    the flag is never cleared and the saved error never touched; the
    protocol object is left as the write left it.  However often [do_cont]
    is called, the operation is completed at the end exactly when the last
    call returned [true] or it was completed before. *)
Theorem Op_snd_completed_by_the_write (w : Snd_world) :
  (forall P type msg op P',
     Op_snd_ctor P type msg = (Ret op, P') ->
     write_msg type msg P = (Ret tt, P') /\
     is_completed op = false /\ is_done op = false /\ m_error op = None) /\
  fst (do_cont w) = fst (wr_cont (snd_m_proto w)) /\
  snd_m_proto (snd (do_cont w)) = snd (wr_cont (snd_m_proto w)) /\
  (fst (do_cont w) = Ret true -> is_completed (snd_this (snd (do_cont w))) = true) /\
  (fst (do_cont w) <> Ret true -> snd_this (snd (do_cont w)) = snd_this w) /\
  (fst (wr_wait (snd_m_proto w)) = Ret tt ->
   fst (do_wait w) = Ret tt /\ is_completed (snd_this (snd (do_wait w))) = true) /\
  (fst (wr_wait (snd_m_proto w)) <> Ret tt ->
   fst (do_wait w) = fst (wr_wait (snd_m_proto w)) /\
   snd_this (snd (do_wait w)) = snd_this w) /\
  snd_m_proto (snd (do_wait w)) = snd (wr_wait (snd_m_proto w)) /\
  (forall n,
     m_error (snd_this (snd (drive n w))) = m_error (snd_this w) /\
     is_completed (snd_this (snd (drive n w)))
       = (is_completed (snd_this w)
          || match fst (drive n w) with Ret true => true | _ => false end)).
Proof.
  split; [|split; [|split; [|split; [|split; [|split; [|split; [|split]]]]]]].
  - intros P type msg op P'. unfold Op_snd_ctor.
    destruct (write_msg type msg P) as [[[] | e |] Q]; intros H;
      try discriminate.
    injection H as <- <-. now repeat split.
  - unfold do_cont. now destruct (wr_cont (snd_m_proto w)) as [[[|] | e |] Q].
  - unfold do_cont. now destruct (wr_cont (snd_m_proto w)) as [[[|] | e |] Q].
  - unfold do_cont. destruct (wr_cont (snd_m_proto w)) as [[[|] | e |] Q];
      simpl; intros H; try discriminate. reflexivity.
  - unfold do_cont. destruct (wr_cont (snd_m_proto w)) as [[[|] | e |] Q];
      simpl; intros H; first [reflexivity | now destruct H].
  - unfold do_wait. destruct (wr_wait (snd_m_proto w)) as [[[] | e |] Q];
      simpl; intros H; try discriminate. now split.
  - unfold do_wait. destruct (wr_wait (snd_m_proto w)) as [[[] | e |] Q];
      simpl; intros H; first [now split | now destruct H].
  - unfold do_wait. now destruct (wr_wait (snd_m_proto w)) as [[[] | e |] Q].
  - intros n. revert w. induction n as [|n IH]; intros w.
    + simpl. split; [reflexivity|]. now rewrite orb_false_r.
    + cbn [drive]. unfold do_cont.
      destruct (wr_cont (snd_m_proto w)) as [[[|] | e |] Q]; simpl.
      * split; [reflexivity|]. unfold is_completed. simpl. now rewrite orb_true_r.
      * destruct (IH {| snd_this := snd_this w; snd_m_proto := Q |}) as [He Hc].
        split; [exact He | exact Hc].
      * split; [reflexivity|]. now rewrite orb_false_r.
      * split; [reflexivity|]. now rewrite orb_false_r.
Qed.

End Op_snd.

(** A write that needs three calls of [wr_cont], counted in [m_wr_op]. *)
Definition slow_wr_cont (P : @Protocol_impl (list Call) string)
    : Outcome bool * @Protocol_impl (list Call) string :=
  match m_wr_op P with
  | Some n => if 1 <? n then (Ret false, set_wr (m_str P) (m_wr_buf P) (m_wr_size P)
                                             (Some (n - 1)) P)
              else (Ret true, set_wr (m_str P) (m_wr_buf P) (m_wr_size P) None P)
  | None => (Ret true, P)
  end.

Definition sending : @Snd_world (list Call) string :=
  {| snd_this := Op_base_ctor;
     snd_m_proto := set_wr (m_str (connection [])) [] 16 (Some 3) (connection []) |}.

Lemma Op_snd_completed_by_the_write_witness :
  is_completed (snd_this (snd (drive slow_wr_cont 2 sending))) = false /\
  is_completed (snd_this (snd (drive slow_wr_cont 3 sending))) = true /\
  is_completed (snd_this (snd (do_cont slow_wr_cont sending))) = false.
Proof.
  pose proof (Op_snd_completed_by_the_write
                (write_msg sample_serialize) slow_wr_cont wr_wait sending)
    as (_ & _ & _ & _ & Hcont & _ & _ & _ & Hdrive).
  split; [|split].
  - rewrite (proj2 (Hdrive 2%nat)). reflexivity.
  - rewrite (proj2 (Hdrive 3%nat)). reflexivity.
  - rewrite Hcont; [reflexivity|]. discriminate.
Defined.

End Send.

(** * [BaseResult] (first part of [include/result.h])

    Objects live in a store, by address, so that [init] can be given the
    object it is called on and the object it moves from as two references,
    which may or may not be the same. *)
Module Result.

(** [m_impl] is a pointer to the implementation, [None] for NULL;
    [m_pos] is a [row_count_t]. *)
Record BaseResult := {
  m_impl : option positive;
  m_owns_impl : bool;
  m_pos : Z
}.

Definition set_m_pos (v : Z) (r : BaseResult) : BaseResult :=
  {| m_impl := m_impl r; m_owns_impl := m_owns_impl r; m_pos := v |}.

Definition set_m_impl (v : option positive) (r : BaseResult) : BaseResult :=
  {| m_impl := v; m_owns_impl := m_owns_impl r; m_pos := m_pos r |}.

Definition set_m_owns_impl (v : bool) (r : BaseResult) : BaseResult :=
  {| m_impl := m_impl r; m_owns_impl := v; m_pos := m_pos r |}.

(** [BaseResult()]. *)
Definition BaseResult_ctor : BaseResult :=
  {| m_impl := None; m_owns_impl := true; m_pos := 0 |}.

(** [void BaseResult::init(BaseResult &&init)], called on the object at
    [self] with a reference to the object at [other].  The result is [None]
    when a reference is to no object. *)
Definition init (self other : positive) (h : gmap positive BaseResult)
    : option (gmap positive BaseResult) :=
  _ ← h !! self;
  (* m_pos = 0; *)
  let h1 := alter (set_m_pos 0) self h in
  (* m_impl = init.m_impl; *)
  src ← h1 !! other;
  let h2 := alter (set_m_impl (m_impl src)) self h1 in
  (* if (!init.m_owns_impl) *)
  src ← h2 !! other;
  if negb (m_owns_impl src) then
    (* m_owns_impl = false; *)
    Some (alter (set_m_owns_impl false) self h2)
  else
    (* m_owns_impl = true; init.m_owns_impl = false; *)
    Some (alter (set_m_owns_impl false) other
            (alter (set_m_owns_impl true) self h2)).

(** [init] on two objects. *)
Lemma init_distinct (self other : positive) (h : gmap positive BaseResult)
    (dst src : BaseResult) :
  self <> other ->
  h !! self = Some dst ->
  h !! other = Some src ->
  init self other h =
    Some (<[other := set_m_owns_impl false src]>
            (<[self := {| m_impl := m_impl src; m_owns_impl := m_owns_impl src;
                          m_pos := 0 |}]> h)).
Proof.
  intros Hne Hdst Hsrc. unfold init.
  rewrite Hdst. simpl.
  rewrite lookup_alter_ne by done. rewrite Hsrc. simpl.
  rewrite !lookup_alter_ne by done. rewrite Hsrc. simpl.
  destruct (m_owns_impl src) eqn:Hown; simpl; f_equal; apply map_eq; intros a.
  - destruct (decide (a = other)) as [-> | Hao];
      [|destruct (decide (a = self)) as [-> | Has]].
    + rewrite lookup_insert_eq, lookup_alter_eq.
      rewrite !lookup_alter_ne by done. now rewrite Hsrc.
    + rewrite lookup_insert_ne, lookup_insert_eq by done.
      rewrite lookup_alter_ne by done. now rewrite !lookup_alter_eq, Hdst.
    + rewrite !lookup_insert_ne by done. now rewrite !lookup_alter_ne by done.
  - destruct (decide (a = other)) as [-> | Hao];
      [|destruct (decide (a = self)) as [-> | Has]].
    + rewrite lookup_insert_eq.
      rewrite !lookup_alter_ne by done. rewrite Hsrc.
      destruct src; simpl in *; now subst.
    + rewrite lookup_insert_ne, lookup_insert_eq by done.
      now rewrite !lookup_alter_eq, Hdst.
    + rewrite !lookup_insert_ne by done. now rewrite !lookup_alter_ne by done.
Qed.

(** C10.  After [init(std::move(other))] on two objects the position of
    the destination is 0 and its [m_impl] is the one the source had; the
    destination owns the implementation exactly when the source owned it
    before, the source does not own it any more, so at most one of the two
    owns it.  The source keeps its pointer and its position, and no other
    object changes. *)
Theorem init_moves_ownership (self other : positive) (h : gmap positive BaseResult)
    (dst src : BaseResult) :
  self <> other ->
  h !! self = Some dst ->
  h !! other = Some src ->
  exists h' dst' src',
    init self other h = Some h' /\
    h' !! self = Some dst' /\
    h' !! other = Some src' /\
    m_pos dst' = 0 /\
    m_impl dst' = m_impl src /\
    (m_owns_impl dst' = true <-> m_owns_impl src = true) /\
    m_owns_impl src' = false /\
    ~ (m_owns_impl dst' = true /\ m_owns_impl src' = true) /\
    m_impl src' = m_impl src /\
    m_pos src' = m_pos src /\
    (forall a, a <> self -> a <> other -> h' !! a = h !! a).
Proof.
  intros Hne Hdst Hsrc.
  eexists _, _, _. split; [now apply (init_distinct self other h dst src)|].
  split; [now rewrite lookup_insert_ne, lookup_insert_eq by done|].
  split; [now rewrite lookup_insert_eq|].
  simpl. repeat split; try done.
  - now intros [_ ?].
  - intros a Has Hao. now rewrite !lookup_insert_ne by done.
Qed.

(** When an object is moved into itself, it does not own the implementation
    afterwards, whether or not it did before. *)
Remark init_self (self : positive) (h : gmap positive BaseResult) (r : BaseResult) :
  h !! self = Some r ->
  init self self h =
    Some (<[self := {| m_impl := m_impl r; m_owns_impl := false; m_pos := 0 |}]> h).
Proof.
  intros Hr. unfold init. rewrite Hr. simpl.
  rewrite lookup_alter_eq, Hr. simpl.
  rewrite !lookup_alter_eq, Hr. simpl.
  destruct (m_owns_impl r); simpl; f_equal; apply map_eq; intros a;
    (destruct (decide (a = self)) as [-> | Ha];
     [ rewrite lookup_insert_eq; now rewrite !lookup_alter_eq, Hr
     | rewrite lookup_insert_ne by done; now rewrite !lookup_alter_ne by done ]).
Qed.

(** A result that owns implementation 7, at address 2, moved into a fresh
    object at address 1. *)
Definition two_results : gmap positive BaseResult :=
  <[1%positive := BaseResult_ctor]>
    (<[2%positive := {| m_impl := Some 7%positive; m_owns_impl := true; m_pos := 5 |}]> ∅).

Lemma init_moves_ownership_witness :
  exists h' dst' src',
    init 1 2 two_results = Some h' /\
    h' !! 1%positive = Some dst' /\
    h' !! 2%positive = Some src' /\
    m_pos dst' = 0 /\
    m_impl dst' = Some 7%positive /\
    m_owns_impl dst' = true /\
    m_owns_impl src' = false.
Proof.
  destruct (init_moves_ownership 1 2 two_results BaseResult_ctor
              {| m_impl := Some 7%positive; m_owns_impl := true; m_pos := 5 |})
    as (h' & dst' & src' & H1 & H2 & H3 & H4 & H5 & H6 & H7 & _);
    [discriminate | reflexivity | reflexivity |].
  exists h', dst', src'.
  repeat split; try assumption.
  apply H6. reflexivity.
Defined.

(** ** Moves of results

    [BaseResult(BaseResult &&other)] has the body [init(std::move(other))]
    and no member initialisers: [init] runs on an object whose members hold
    indeterminate values.  [RowResult(RowResult&&)] and
    [RowResult(BaseResult&&)] are that constructor on the base;
    [BaseResult::operator=] and [Result::operator=] are [init] on an
    object that exists, followed by [return *this]. *)

(** The move constructor for a new object at [self], whose members hold
    [indeterminate] when the body begins. *)
Definition BaseResult_move (self other : positive) (indeterminate : BaseResult)
    (h : gmap positive BaseResult) : option (gmap positive BaseResult) :=
  init self other (<[self := indeterminate]> h).

(** [operator=(BaseResult &&other)] on the object at [self]. *)
Definition assign (self other : positive) (h : gmap positive BaseResult)
    : option (gmap positive BaseResult) :=
  init self other h.

(** A result handed on from object to object: the object at [a] is moved
    into a new object at the first address of [rest], that one into a new
    object at the second, and so on, as in the copy-initialisation
    [RowResult res = coll...execute();], where a temporary [RowResult] is
    made from the [Result] and [res] is made from the temporary. *)
Fixpoint move_along (a : positive) (rest : list positive)
    (h : gmap positive BaseResult) : option (gmap positive BaseResult) :=
  match rest with
  | [] => Some h
  | b :: rest' =>
      h' ← BaseResult_move b a BaseResult_ctor h;
      move_along b rest' h'
  end.

(** The object [r] owns the implementation at [p]: it is the one that
    has to delete it. *)
Definition owns (r : BaseResult) (p : positive) : Prop :=
  m_impl r = Some p /\ m_owns_impl r = true.

(** No implementation has two owners. *)
Definition unique_owner (h : gmap positive BaseResult) : Prop :=
  forall a b ra rb p,
    h !! a = Some ra -> h !! b = Some rb -> owns ra p -> owns rb p -> a = b.

(** The state of the destination after [init]. *)
Definition moved_from (src : BaseResult) : BaseResult :=
  {| m_impl := m_impl src; m_owns_impl := m_owns_impl src; m_pos := 0 |}.

Lemma BaseResult_move_distinct (self other : positive) (g src : BaseResult)
    (h : gmap positive BaseResult) :
  self <> other ->
  h !! other = Some src ->
  BaseResult_move self other g h
    = Some (<[other := set_m_owns_impl false src]> (<[self := moved_from src]> h)).
Proof.
  intros Hne Hsrc. unfold BaseResult_move.
  rewrite (init_distinct self other (<[self := g]> h) g src Hne).
  - now rewrite insert_insert_eq.
  - now rewrite lookup_insert_eq.
  - now rewrite lookup_insert_ne by done.
Qed.

(** X9.  [init] reads no member of the object it is called on and writes
    all three: the object made by the move constructor is the same whatever
    its members held before, and so is the object assigned to.  The new
    object has the implementation of the source, owns it exactly when the
    source did, and is at position 0. *)
Theorem move_constructor_initialises
    (self other : positive) (g1 g2 src : BaseResult) (h : gmap positive BaseResult) :
  self <> other ->
  h !! other = Some src ->
  BaseResult_move self other g1 h = BaseResult_move self other g2 h /\
  assign self other (<[self := g1]> h) = assign self other (<[self := g2]> h) /\
  exists h',
    BaseResult_move self other g1 h = Some h' /\
    h' !! self = Some {| m_impl := m_impl src; m_owns_impl := m_owns_impl src;
                         m_pos := 0 |} /\
    h' !! other = Some (set_m_owns_impl false src).
Proof.
  intros Hne Hsrc.
  pose proof (BaseResult_move_distinct self other g1 src h Hne Hsrc) as H1.
  pose proof (BaseResult_move_distinct self other g2 src h Hne Hsrc) as H2.
  split; [now rewrite H1, H2|]. split; [exact (eq_trans H1 (eq_sym H2))|].
  eexists. split; [exact H1|]. split.
  - now rewrite lookup_insert_ne, lookup_insert_eq by done.
  - now rewrite lookup_insert_eq.
Qed.

(** What [init] leaves at each address, two objects or one. *)
Lemma init_lookup (self other : positive) (h h' : gmap positive BaseResult)
    (a : positive) (r : BaseResult) :
  init self other h = Some h' ->
  h' !! a = Some r ->
  exists src,
    h !! other = Some src /\
    ((a = other /\ r = set_m_owns_impl false (if decide (self = other)
                                              then moved_from src else src)) \/
     (a = self /\ a <> other /\ r = moved_from src) \/
     (a <> self /\ a <> other /\ h !! a = Some r)).
Proof.
  intros Hinit Hr.
  destruct (h !! self) as [dst|] eqn:Hdst;
    [|unfold init in Hinit; rewrite Hdst in Hinit; discriminate].
  destruct (decide (self = other)) as [<- | Hne].
  - rewrite (init_self self h dst Hdst) in Hinit. injection Hinit as <-.
    exists dst. split; [exact Hdst|].
    destruct (decide (a = self)) as [-> | Ha].
    + left. rewrite lookup_insert_eq in Hr. injection Hr as <-. now split.
    + right. right. rewrite lookup_insert_ne in Hr by done. now repeat split.
  - destruct (h !! other) as [src|] eqn:Hsrc.
    + rewrite (init_distinct self other h dst src Hne Hdst Hsrc) in Hinit.
      injection Hinit as <-. exists src. split; [reflexivity|].
      destruct (decide (a = other)) as [-> | Hao];
        [|destruct (decide (a = self)) as [-> | Has]].
      * left. rewrite lookup_insert_eq in Hr. injection Hr as <-. now split.
      * right. left. rewrite lookup_insert_ne, lookup_insert_eq in Hr by done.
        injection Hr as <-. now repeat split.
      * right. right. rewrite !lookup_insert_ne in Hr by done. now repeat split.
    + unfold init in Hinit. rewrite Hdst in Hinit. simpl in Hinit.
      rewrite lookup_alter_ne in Hinit by done. rewrite Hsrc in Hinit.
      discriminate.
Qed.

Lemma unique_owner_insert (a : positive) (g : BaseResult)
    (h : gmap positive BaseResult) :
  unique_owner h -> m_owns_impl g = false -> unique_owner (<[a := g]> h).
Proof.
  intros Hu Hg x y rx ry p Hx Hy [Hix Hox] [Hiy Hoy].
  destruct (decide (x = a)) as [-> | Hxa].
  { rewrite lookup_insert_eq in Hx. injection Hx as <-. congruence. }
  destruct (decide (y = a)) as [-> | Hya].
  { rewrite lookup_insert_eq in Hy. injection Hy as <-. congruence. }
  rewrite lookup_insert_ne in Hx by done. rewrite lookup_insert_ne in Hy by done.
  now apply (Hu x y rx ry p).
Qed.

Lemma init_keeps_unique_owner (self other : positive)
    (h h' : gmap positive BaseResult) :
  unique_owner h -> init self other h = Some h' -> unique_owner h'.
Proof.
  intros Hu Hinit a b ra rb p Ha Hb [Hia Hoa] [Hib Hob].
  destruct (init_lookup self other h h' a ra Hinit Ha) as (src & Hsrc & Hca).
  destruct (init_lookup self other h h' b rb Hinit Hb) as (src' & Hsrc' & Hcb).
  rewrite Hsrc in Hsrc'. injection Hsrc' as <-.
  destruct Hca as [[-> ->] | [(-> & Hao & ->) | (Has & Hao & Ha0)]].
  { simpl in Hoa. discriminate. }
  - destruct Hcb as [[-> ->] | [(-> & Hbo & ->) | (Hbs & Hbo & Hb0)]].
    + simpl in Hob. discriminate.
    + reflexivity.
    + exfalso. apply Hbo. symmetry.
      apply (Hu other b src rb p Hsrc Hb0); split; assumption.
  - destruct Hcb as [[-> ->] | [(-> & Hbo & ->) | (Hbs & Hbo & Hb0)]].
    + simpl in Hob. discriminate.
    + exfalso. apply Hao.
      apply (Hu a other ra src p Ha0 Hsrc); split; assumption.
    + apply (Hu a b ra rb p Ha0 Hb0); split; assumption.
Qed.

(** X10.  Moves keep single ownership: when no implementation has two
    owners, none has two after an assignment [operator=], whichever two
    objects it is given, the same one twice included, nor after a new
    object is made by the move constructor, whatever its members held
    before. *)
Theorem moves_keep_unique_owner (self other : positive) (g : BaseResult)
    (h h' : gmap positive BaseResult) :
  unique_owner h ->
  (assign self other h = Some h' -> unique_owner h') /\
  (h !! self = None -> BaseResult_move self other g h = Some h' -> unique_owner h').
Proof.
  intros Hu. split.
  - now apply init_keeps_unique_owner.
  - intros Hnew Hmove.
    assert (Hsame : BaseResult_move self other (set_m_owns_impl false g) h = Some h').
    { destruct (decide (self = other)) as [<- | Hne].
      - unfold BaseResult_move in *.
        rewrite (init_self self _ g) in Hmove by now rewrite lookup_insert_eq.
        rewrite (init_self self _ (set_m_owns_impl false g))
          by now rewrite lookup_insert_eq.
        rewrite insert_insert_eq in *. exact Hmove.
      - destruct (h !! other) as [src|] eqn:Hsrc.
        + rewrite (BaseResult_move_distinct self other g src h Hne Hsrc) in Hmove.
          now rewrite (BaseResult_move_distinct self other _ src h Hne Hsrc).
        + unfold BaseResult_move, init in Hmove.
          rewrite lookup_insert_eq in Hmove. simpl in Hmove.
          rewrite lookup_alter_ne, lookup_insert_ne, Hsrc in Hmove by done.
          discriminate. }
    apply (init_keeps_unique_owner self other
             (<[self := set_m_owns_impl false g]> h) h'); [|exact Hsame].
    now apply unique_owner_insert.
Qed.

(** X11.  An assignment does not release what the destination had: when
    the destination owns an implementation, and the source has another or
    none, then after [operator=] no object owns it any more, and the
    destination has the implementation of the source in its place. *)
Theorem assign_orphans_old_implementation
    (self other q : positive) (dst src : BaseResult) (h h' : gmap positive BaseResult) :
  unique_owner h ->
  h !! self = Some dst ->
  owns dst q ->
  h !! other = Some src ->
  m_impl src <> Some q ->
  assign self other h = Some h' ->
  (forall a r, h' !! a = Some r -> ~ owns r q) /\
  (exists dst', h' !! self = Some dst' /\ m_impl dst' = m_impl src).
Proof.
  intros Hu Hdst Hq Hsrc Hother Hinit. unfold assign in Hinit.
  assert (Hne : self <> other).
  { intros <-. rewrite Hdst in Hsrc. injection Hsrc as <-. now destruct Hq. }
  split.
  - intros a r Hr [Hi Ho].
    destruct (init_lookup self other h h' a r Hinit Hr) as (src' & Hsrc' & Hc).
    rewrite Hsrc in Hsrc'. injection Hsrc' as <-.
    destruct Hc as [[-> ->] | [(-> & Hao & ->) | (Has & Hao & Ha0)]].
    + simpl in Ho. discriminate.
    + simpl in Hi. contradiction.
    + apply Has. apply (Hu a self r dst q Ha0 Hdst); [now split | exact Hq].
  - rewrite (init_distinct self other h dst src Hne Hdst Hsrc) in Hinit.
    injection Hinit as <-. eexists. split.
    + now rewrite lookup_insert_ne, lookup_insert_eq by done.
    + reflexivity.
Qed.

(** X12.  A result handed on through any number of new objects arrives
    whole: the last object has the implementation the first one had and
    owns it exactly when the first one did; the first object and every
    object in between still point to it and do not own it; no other
    object is touched. *)
Theorem move_along_hands_over
    (a z : positive) (mid : list positive) (src : BaseResult)
    (h : gmap positive BaseResult) :
  NoDup (a :: mid ++ [z]) ->
  h !! a = Some src ->
  exists h' r,
    move_along a (mid ++ [z]) h = Some h' /\
    h' !! z = Some r /\
    m_impl r = m_impl src /\
    m_owns_impl r = m_owns_impl src /\
    m_pos r = 0 /\
    (forall x, x ∈ a :: mid ->
       exists r', h' !! x = Some r' /\ m_impl r' = m_impl src /\
                  m_owns_impl r' = false) /\
    (forall x, x ∉ a :: mid ++ [z] -> h' !! x = h !! x).
Proof.
  revert a src h. induction mid as [|b mid IH]; intros a src h Hnd Hsrc.
  - assert (Hza : z <> a).
    { intros ->. apply NoDup_cons in Hnd as [Hin _]. apply Hin. set_solver. }
    simpl. rewrite (BaseResult_move_distinct z a _ src h Hza Hsrc). simpl.
    eexists _, _. split; [reflexivity|].
    split; [now rewrite lookup_insert_ne, lookup_insert_eq by done|].
    split; [reflexivity|]. split; [reflexivity|]. split; [reflexivity|]. split.
    + intros x Hx. apply list_elem_of_singleton in Hx as ->.
      eexists. split; [now rewrite lookup_insert_eq|]. now split.
    + intros x Hx. apply not_elem_of_cons in Hx as [Hxa Hx].
      apply not_elem_of_cons in Hx as [Hxz _].
      now rewrite !lookup_insert_ne by done.
  - assert (Hba : b <> a).
    { intros ->. apply NoDup_cons in Hnd as [Hin _]. apply Hin. set_solver. }
    apply NoDup_cons in Hnd as [Ha Hnd].
    cbn [app move_along].
    rewrite (BaseResult_move_distinct b a _ src h Hba Hsrc). simpl.
    destruct (IH b (moved_from src)
                (<[a := set_m_owns_impl false src]> (<[b := moved_from src]> h)) Hnd)
      as (h' & r & Hrun & Hz & Hi & Ho & Hp & Hmid & Hrest).
    { now rewrite lookup_insert_ne, lookup_insert_eq by done. }
    exists h', r. split; [exact Hrun|]. split; [exact Hz|].
    split; [exact Hi|]. split; [exact Ho|]. split; [exact Hp|]. split.
    + intros x Hx. apply elem_of_cons in Hx as [-> | Hx].
      * rewrite Hrest by exact Ha. rewrite lookup_insert_eq.
        eexists. split; [reflexivity|]. now split.
      * apply (Hmid x Hx).
    + intros x Hx. apply not_elem_of_cons in Hx as [Hxa Hx].
      rewrite Hrest by exact Hx.
      apply not_elem_of_cons in Hx as [Hxb _].
      now rewrite !lookup_insert_ne by done.
Qed.

(** A result that owns implementation 7, at address 2, beside a result
    that owns implementation 9, at address 1. *)
Definition two_owners : gmap positive BaseResult :=
  <[1%positive := {| m_impl := Some 9%positive; m_owns_impl := true; m_pos := 3 |}]>
    (<[2%positive := {| m_impl := Some 7%positive; m_owns_impl := true; m_pos := 5 |}]> ∅).

Lemma two_owners_unique : unique_owner two_owners.
Proof.
  intros a b ra rb p Ha Hb [Hia Hoa] [Hib Hob]. unfold two_owners in *.
  apply lookup_insert_Some in Ha as [[<- <-] | [Ha1 Ha]];
    [|apply lookup_insert_Some in Ha as [[<- <-] | [Ha2 Ha]];
      [|now rewrite lookup_empty in Ha]];
    (apply lookup_insert_Some in Hb as [[<- <-] | [Hb1 Hb]];
     [|apply lookup_insert_Some in Hb as [[<- <-] | [Hb2 Hb]];
       [|now rewrite lookup_empty in Hb]]);
    simpl in *; congruence.
Qed.

Lemma move_constructor_initialises_witness :
  BaseResult_move 3 2 BaseResult_ctor two_owners
    = BaseResult_move 3 2 {| m_impl := Some 9%positive; m_owns_impl := true;
                            m_pos := 8 |} two_owners.
Proof.
  apply (move_constructor_initialises 3 2 BaseResult_ctor
           {| m_impl := Some 9%positive; m_owns_impl := true; m_pos := 8 |}
           {| m_impl := Some 7%positive; m_owns_impl := true; m_pos := 5 |}
           two_owners); [discriminate | reflexivity].
Defined.

Lemma moves_keep_unique_owner_witness :
  exists h', assign 1 2 two_owners = Some h' /\ unique_owner h'.
Proof.
  assert (H : assign 1 2 two_owners
              = Some (<[2%positive := {| m_impl := Some 7%positive;
                                         m_owns_impl := false; m_pos := 5 |}]>
                        (<[1%positive := {| m_impl := Some 7%positive;
                                            m_owns_impl := true; m_pos := 0 |}]>
                           two_owners))).
  { apply (init_distinct 1 2 two_owners
             {| m_impl := Some 9%positive; m_owns_impl := true; m_pos := 3 |}
             {| m_impl := Some 7%positive; m_owns_impl := true; m_pos := 5 |});
      [discriminate | reflexivity | reflexivity]. }
  eexists. split; [exact H|].
  apply (proj1 (moves_keep_unique_owner 1 2 BaseResult_ctor two_owners _
                  two_owners_unique)).
  exact H.
Defined.

Lemma assign_orphans_old_implementation_witness :
  exists h',
    assign 1 2 two_owners = Some h' /\
    forall a r, h' !! a = Some r -> ~ owns r 9%positive.
Proof.
  assert (H : assign 1 2 two_owners
              = Some (<[2%positive := {| m_impl := Some 7%positive;
                                         m_owns_impl := false; m_pos := 5 |}]>
                        (<[1%positive := {| m_impl := Some 7%positive;
                                            m_owns_impl := true; m_pos := 0 |}]>
                           two_owners))).
  { apply (init_distinct 1 2 two_owners
             {| m_impl := Some 9%positive; m_owns_impl := true; m_pos := 3 |}
             {| m_impl := Some 7%positive; m_owns_impl := true; m_pos := 5 |});
      [discriminate | reflexivity | reflexivity]. }
  eexists. split; [exact H|].
  apply (assign_orphans_old_implementation 1 2 9
           {| m_impl := Some 9%positive; m_owns_impl := true; m_pos := 3 |}
           {| m_impl := Some 7%positive; m_owns_impl := true; m_pos := 5 |}
           two_owners _ two_owners_unique);
    [reflexivity | now split | reflexivity | discriminate | exact H].
Defined.

Lemma move_along_hands_over_witness :
  exists h' r,
    move_along 2 [3; 4]%positive two_owners = Some h' /\
    h' !! 4%positive = Some r /\
    m_impl r = Some 7%positive /\
    m_owns_impl r = true.
Proof.
  destruct (move_along_hands_over 2 4 [3%positive]
              {| m_impl := Some 7%positive; m_owns_impl := true; m_pos := 5 |}
              two_owners)
    as (h' & r & Hrun & Hz & Hi & Ho & _).
  - apply (bool_decide_unpack (NoDup [2; 3; 4]%positive)). vm_compute. exact I.
  - reflexivity.
  - exists h', r. repeat apply conj; assumption.
Defined.

End Result.

(** * [Safe_prc] over the protocol's processors
    ([cdk/include/mysql/cdk/protocol/mysqlx_expr.h])

    A processor is an object with pure virtual callbacks; it is modelled by
    what each callback does to a state [S] of the caller's, and, for the
    three callbacks of [Expr_processor] that return a pointer to a further
    processor, by that pointer as well. *)
Module Mysqlx_expr.

Section Processors.

Context {S : Type}.

(** [float], [double], [api::Db_obj], [api::Doc_path] and
    [Expr_list::Processor] are declared elsewhere. *)
Variables float double Db_obj Doc_path Args_prc : Type.

Definition charset_id_t := Z.   (* uint64_t *)

(** [Scalar_processor]; overloads are told apart by a suffix. *)
Record Scalar_processor := {
  null : S -> S;
  str : bytes -> S -> S;
  str_cs : charset_id_t -> bytes -> S -> S;
  num_int64 : Z -> S -> S;
  num_uint64 : Z -> S -> S;
  num_float : float -> S -> S;
  num_double : double -> S -> S;
  yesno : bool -> S -> S;
  octets : bytes -> S -> S
}.

(** [Expr_processor], with [Value_prc = Scalar_processor]. *)
Record Expr_processor := {
  val : S -> option Scalar_processor * S;
  op : string -> S -> option Args_prc * S;
  call : Db_obj -> S -> option Args_prc * S;
  var : string -> S -> S;
  id : string -> option Db_obj -> S -> S;
  id_path : string -> option Db_obj -> Doc_path -> S -> S;
  id_doc : Doc_path -> S -> S;
  placeholder : S -> S;
  placeholder_name : string -> S -> S;
  placeholder_pos : Z -> S -> S
}.

(** [Safe_prc<PRC>]: the wrapped pointer [m_prc] of [Safe_prc_base<PRC>],
    set by the constructors [Safe_prc(Processor *prc)] and
    [Safe_prc(Processor &prc)]. *)
Record Safe_prc (Processor : Type) := {
  m_prc : option Processor
}.
Arguments m_prc {Processor} _.

Definition Safe_prc_of_ptr {Processor : Type} (prc : option Processor)
    : Safe_prc Processor :=
  {| m_prc := prc |}.

Definition Safe_prc_of_ref {Processor : Type} (prc : Processor)
    : Safe_prc Processor :=
  {| m_prc := Some prc |}.

(** [return m_prc ? m_prc->f(args) : (void)NULL;] *)
Definition forward {P : Type} (sp : Safe_prc P) (f : P -> S -> S) : S -> S :=
  match m_prc sp with
  | Some prc => f prc
  | None => fun s => s
  end.

(** [return m_prc ? m_prc->f(args) : NULL;], the result converted to a
    [Safe_prc] by its constructor from a pointer. *)
Definition forward_ptr {P Q : Type} (sp : Safe_prc P) (f : P -> S -> option Q * S)
    : S -> Safe_prc Q * S :=
  match m_prc sp with
  | Some prc => fun s => let (q, s') := f prc s in (Safe_prc_of_ptr q, s')
  | None => fun s => (Safe_prc_of_ptr None, s)
  end.

(** [Safe_prc<Scalar_processor>]. *)
Definition safe_null (sp : Safe_prc Scalar_processor) : S -> S :=
  forward sp null.

Definition safe_str (sp : Safe_prc Scalar_processor) (v : bytes) : S -> S :=
  forward sp (fun prc => str prc v).

Definition safe_str_cs (sp : Safe_prc Scalar_processor) (cs : charset_id_t)
    (v : bytes) : S -> S :=
  forward sp (fun prc => str_cs prc cs v).

Definition safe_num_int64 (sp : Safe_prc Scalar_processor) (v : Z) : S -> S :=
  forward sp (fun prc => num_int64 prc v).

Definition safe_num_uint64 (sp : Safe_prc Scalar_processor) (v : Z) : S -> S :=
  forward sp (fun prc => num_uint64 prc v).

Definition safe_num_float (sp : Safe_prc Scalar_processor) (v : float) : S -> S :=
  forward sp (fun prc => num_float prc v).

Definition safe_num_double (sp : Safe_prc Scalar_processor) (v : double) : S -> S :=
  forward sp (fun prc => num_double prc v).

Definition safe_yesno (sp : Safe_prc Scalar_processor) (v : bool) : S -> S :=
  forward sp (fun prc => yesno prc v).

Definition safe_octets (sp : Safe_prc Scalar_processor) (data : bytes) : S -> S :=
  forward sp (fun prc => octets prc data).

(** [Safe_prc<Expr_processor>]. *)
Definition safe_val (sp : Safe_prc Expr_processor)
    : S -> Safe_prc Scalar_processor * S :=
  forward_ptr sp val.

Definition safe_op (sp : Safe_prc Expr_processor) (name : string)
    : S -> Safe_prc Args_prc * S :=
  forward_ptr sp (fun prc => op prc name).

Definition safe_call (sp : Safe_prc Expr_processor) (func : Db_obj)
    : S -> Safe_prc Args_prc * S :=
  forward_ptr sp (fun prc => call prc func).

Definition safe_var (sp : Safe_prc Expr_processor) (name : string) : S -> S :=
  forward sp (fun prc => var prc name).

Definition safe_id (sp : Safe_prc Expr_processor) (name : string)
    (db_obj : option Db_obj) : S -> S :=
  forward sp (fun prc => id prc name db_obj).

Definition safe_id_path (sp : Safe_prc Expr_processor) (name : string)
    (db_obj : option Db_obj) (path : Doc_path) : S -> S :=
  forward sp (fun prc => id_path prc name db_obj path).

Definition safe_id_doc (sp : Safe_prc Expr_processor) (path : Doc_path) : S -> S :=
  forward sp (fun prc => id_doc prc path).

Definition safe_placeholder (sp : Safe_prc Expr_processor) : S -> S :=
  forward sp placeholder.

Definition safe_placeholder_name (sp : Safe_prc Expr_processor) (name : string)
    : S -> S :=
  forward sp (fun prc => placeholder_name prc name).

Definition safe_placeholder_pos (sp : Safe_prc Expr_processor) (pos : Z) : S -> S :=
  forward sp (fun prc => placeholder_pos prc pos).

Lemma forward_NULL {P : Type} (sp : Safe_prc P) (f : P -> S -> S) (s : S) :
  m_prc sp = None -> forward sp f s = s.
Proof.
  unfold forward. now intros ->.
Qed.

Lemma forward_call {P : Type} (sp : Safe_prc P) (prc : P) (f : P -> S -> S) (s : S) :
  m_prc sp = Some prc -> forward sp f s = f prc s.
Proof.
  unfold forward. now intros ->.
Qed.

Lemma forward_ptr_NULL {P Q : Type} (sp : Safe_prc P) (f : P -> S -> option Q * S)
    (s : S) :
  m_prc sp = None -> forward_ptr sp f s = ({| m_prc := None |}, s).
Proof.
  unfold forward_ptr. now intros ->.
Qed.

Lemma forward_ptr_call {P Q : Type} (sp : Safe_prc P) (prc : P)
    (f : P -> S -> option Q * S) (s : S) :
  m_prc sp = Some prc ->
  forward_ptr sp f s = ({| m_prc := fst (f prc s) |}, snd (f prc s)).
Proof.
  unfold forward_ptr. intros ->. now destruct (f prc s).
Qed.

(** C9.  Every callback of the two wrappers, with every argument: when the
    wrapped pointer is NULL the call changes nothing, and [val], [op] and
    [call] return a wrapper of NULL; otherwise the call is the same callback
    of the wrapped processor on the same arguments, and [val], [op] and
    [call] wrap the pointer that callback returns. *)
Theorem Safe_prc_forwards
    (ssp : Safe_prc Scalar_processor) (esp : Safe_prc Expr_processor) (s : S)
    (data : bytes) (cs : charset_id_t) (i u : Z) (f : float) (d : double) (b : bool)
    (name : string) (func : Db_obj) (db_obj : option Db_obj) (path : Doc_path)
    (pos : Z) :
  (m_prc ssp = None ->
     safe_null ssp s = s /\
     safe_str ssp data s = s /\
     safe_str_cs ssp cs data s = s /\
     safe_num_int64 ssp i s = s /\
     safe_num_uint64 ssp u s = s /\
     safe_num_float ssp f s = s /\
     safe_num_double ssp d s = s /\
     safe_yesno ssp b s = s /\
     safe_octets ssp data s = s) /\
  (forall prc, m_prc ssp = Some prc ->
     safe_null ssp s = null prc s /\
     safe_str ssp data s = str prc data s /\
     safe_str_cs ssp cs data s = str_cs prc cs data s /\
     safe_num_int64 ssp i s = num_int64 prc i s /\
     safe_num_uint64 ssp u s = num_uint64 prc u s /\
     safe_num_float ssp f s = num_float prc f s /\
     safe_num_double ssp d s = num_double prc d s /\
     safe_yesno ssp b s = yesno prc b s /\
     safe_octets ssp data s = octets prc data s) /\
  (m_prc esp = None ->
     safe_val esp s = ({| m_prc := None |}, s) /\
     safe_op esp name s = ({| m_prc := None |}, s) /\
     safe_call esp func s = ({| m_prc := None |}, s) /\
     safe_var esp name s = s /\
     safe_id esp name db_obj s = s /\
     safe_id_path esp name db_obj path s = s /\
     safe_id_doc esp path s = s /\
     safe_placeholder esp s = s /\
     safe_placeholder_name esp name s = s /\
     safe_placeholder_pos esp pos s = s) /\
  (forall prc, m_prc esp = Some prc ->
     safe_val esp s = ({| m_prc := fst (val prc s) |}, snd (val prc s)) /\
     safe_op esp name s = ({| m_prc := fst (op prc name s) |}, snd (op prc name s)) /\
     safe_call esp func s
       = ({| m_prc := fst (call prc func s) |}, snd (call prc func s)) /\
     safe_var esp name s = var prc name s /\
     safe_id esp name db_obj s = id prc name db_obj s /\
     safe_id_path esp name db_obj path s = id_path prc name db_obj path s /\
     safe_id_doc esp path s = id_doc prc path s /\
     safe_placeholder esp s = placeholder prc s /\
     safe_placeholder_name esp name s = placeholder_name prc name s /\
     safe_placeholder_pos esp pos s = placeholder_pos prc pos s).
Proof.
  split; [|split; [|split]].
  - intros H. repeat split; now apply forward_NULL.
  - intros prc H. repeat split; now apply (forward_call ssp prc).
  - intros H.
    split; [now apply forward_ptr_NULL|].
    split; [now apply forward_ptr_NULL|].
    split; [now apply forward_ptr_NULL|].
    repeat split; now apply forward_NULL.
  - intros prc H.
    split; [now apply (forward_ptr_call esp prc)|].
    split; [now apply (forward_ptr_call esp prc (fun p => op p name))|].
    split; [now apply (forward_ptr_call esp prc (fun p => call p func))|].
    repeat split; now apply (forward_call esp prc).
Qed.

(** X13.  A literal reported through the wrappers: the scalar callbacks
    made on what [val()] of a wrapper returned reach the processor that
    [val()] of the wrapped expression processor returned, after that call
    of [val()]; when the wrapper holds NULL, nothing is called at all, and
    when the expression processor returns NULL, to have the value ignored,
    only its [val()] is.  A wrapper made from a reference always
    forwards. *)
Theorem safe_val_then_scalar
    (sp : Safe_prc Expr_processor) (f : Scalar_processor -> S -> S)
    (v : Z) (data : bytes) (s : S) :
  forward (fst (safe_val sp s)) f (snd (safe_val sp s)) =
    match m_prc sp with
    | None => s
    | Some prc =>
        match fst (val prc s) with
        | Some q => f q (snd (val prc s))
        | None => snd (val prc s)
        end
    end /\
  safe_num_int64 (fst (safe_val sp s)) v (snd (safe_val sp s)) =
    match m_prc sp with
    | None => s
    | Some prc =>
        match fst (val prc s) with
        | Some q => num_int64 q v (snd (val prc s))
        | None => snd (val prc s)
        end
    end /\
  safe_octets (fst (safe_val sp s)) data (snd (safe_val sp s)) =
    match m_prc sp with
    | None => s
    | Some prc =>
        match fst (val prc s) with
        | Some q => octets q data (snd (val prc s))
        | None => snd (val prc s)
        end
    end /\
  (m_prc sp = None ->
   m_prc (fst (safe_val sp s)) = None /\
   safe_null (fst (safe_val sp s)) (snd (safe_val sp s)) = s) /\
  (forall prc q,
     forward (fst (safe_val (Safe_prc_of_ref prc) s)) f
             (snd (safe_val (Safe_prc_of_ref prc) s))
       = forward (Safe_prc_of_ptr (fst (val prc s))) f (snd (val prc s)) /\
     forward (Safe_prc_of_ref q) f s = f q s).
Proof.
  assert (H : forall g : Scalar_processor -> S -> S,
             forward (fst (safe_val sp s)) g (snd (safe_val sp s)) =
               match m_prc sp with
               | None => s
               | Some prc =>
                   match fst (val prc s) with
                   | Some q => g q (snd (val prc s))
                   | None => snd (val prc s)
                   end
               end).
  { intros g. unfold safe_val, forward_ptr, forward.
    destruct (m_prc sp) as [prc|]; [|reflexivity].
    destruct (val prc s) as [[q|] s']; reflexivity. }
  split; [apply H|]. split; [apply H|]. split; [apply H|]. split.
  - intros Hn. unfold safe_null. rewrite H.
    unfold safe_val, forward_ptr. rewrite Hn. now split.
  - intros prc q. split; [|reflexivity].
    unfold safe_val, forward_ptr, Safe_prc_of_ref. cbn [m_prc].
    now destruct (val prc s).
Qed.

End Processors.

Arguments m_prc {Processor} _.
Arguments Build_Safe_prc {Processor} _.

(** A scalar processor that counts the values it is given, and an
    expression processor that hands it out for every literal. *)
Definition counting : @Scalar_processor nat unit unit :=
  {| null := Nat.succ; str := fun _ => Nat.succ; str_cs := fun _ _ => Nat.succ;
     num_int64 := fun _ => Nat.succ; num_uint64 := fun _ => Nat.succ;
     num_float := fun _ => Nat.succ; num_double := fun _ => Nat.succ;
     yesno := fun _ => Nat.succ; octets := fun _ => Nat.succ |}.

Definition literals_only : @Expr_processor nat unit unit unit unit unit :=
  {| val := fun n => (Some counting, n);
     op := fun _ n => (None, n);
     call := fun _ n => (None, n);
     var := fun _ n => n;
     id := fun _ _ n => n;
     id_path := fun _ _ _ n => n;
     id_doc := fun _ n => n;
     placeholder := fun n => n;
     placeholder_name := fun _ n => n;
     placeholder_pos := fun _ n => n |}.

Lemma Safe_prc_forwards_witness :
  safe_num_int64 unit unit (Safe_prc_of_ref counting) 42 0%nat = 1%nat /\
  safe_num_int64 unit unit (Safe_prc_of_ptr None) 42 0%nat = 0%nat /\
  safe_val unit unit unit unit unit (Safe_prc_of_ref literals_only) 3%nat
    = (Safe_prc_of_ptr (Some counting), 3%nat) /\
  safe_val unit unit unit unit unit (Safe_prc_of_ptr None) 3%nat
    = (Safe_prc_of_ptr None, 3%nat).
Proof.
  pose proof (Safe_prc_forwards unit unit unit unit unit
                (Safe_prc_of_ref counting) (Safe_prc_of_ref literals_only) 0%nat
                [] 0 42 0 tt tt true "" tt None tt 0) as (_ & Hs & _ & _).
  pose proof (Safe_prc_forwards unit unit unit unit unit
                (Safe_prc_of_ptr None) (Safe_prc_of_ptr None) 0%nat
                [] 0 42 0 tt tt true "" tt None tt 0) as (Hn & _ & _ & _).
  pose proof (Safe_prc_forwards unit unit unit unit unit
                (Safe_prc_of_ref counting) (Safe_prc_of_ref literals_only) 3%nat
                [] 0 42 0 tt tt true "" tt None tt 0) as (_ & _ & _ & He).
  pose proof (Safe_prc_forwards unit unit unit unit unit
                (Safe_prc_of_ptr None) (Safe_prc_of_ptr None) 3%nat
                [] 0 42 0 tt tt true "" tt None tt 0) as (_ & _ & Hen & _).
  split; [exact (proj1 (proj2 (proj2 (proj2 (Hs counting eq_refl)))))|].
  split; [exact (proj1 (proj2 (proj2 (proj2 (Hn eq_refl)))))|].
  split; [exact (proj1 (He literals_only eq_refl))|].
  exact (proj1 (Hen eq_refl)).
Defined.

Lemma safe_val_then_scalar_witness :
  safe_num_int64 unit unit
      (fst (safe_val unit unit unit unit unit (Safe_prc_of_ref literals_only) 3%nat))
      42
      (snd (safe_val unit unit unit unit unit (Safe_prc_of_ref literals_only) 3%nat))
    = 4%nat /\
  safe_null unit unit
      (fst (safe_val unit unit unit unit unit (Safe_prc_of_ptr None) 3%nat))
      (snd (safe_val unit unit unit unit unit (Safe_prc_of_ptr None) 3%nat))
    = 3%nat.
Proof.
  split.
  - exact (proj1 (proj2 (safe_val_then_scalar unit unit unit unit unit
                           (Safe_prc_of_ref literals_only)
                           (fun q => null unit unit q) 42 [] 3%nat))).
  - exact (proj2 (proj1 (proj2 (proj2 (proj2
             (safe_val_then_scalar unit unit unit unit unit
                (Safe_prc_of_ptr None) (fun q => null unit unit q) 42 [] 3%nat))))
             eq_refl)).
Defined.

End Mysqlx_expr.
